(** * obspy.signal.invsim: instrument correction and simulation

    A shallow embedding of [obspy/signal/invsim.py] and the properties of
    its windowing, frequency-response, water-level inversion, simulation
    and magnitude code.

    Number model.  Python floats are idealised as the real numbers [R] and
    Python complex numbers as pairs of reals; rounding, overflow, NaN and
    infinities are outside the model.  Python ints are [Z].  The taper
    fraction of [cosTaper] only enters through an integer truncation and
    two equality tests, so it is kept as an exact rational [Q] (every float
    is one), which keeps the control flow of [cosTaper] computable.

    Library model.  [numpy] and [scipy] are not part of the repository;
    the few functions used ([linspace], [ones], [zpk2tf], [freqs],
    [rfft], [irfft], ...) are modelled from their documented behaviour.
    The foreign function of the evalresp library is a section variable. *)

From Stdlib Require Import Reals Lra Lia ZArith QArith List Bool String.
From stdpp Require Import base gmap strings.
Import ListNotations.

Local Open Scope string_scope.
Local Open Scope list_scope.
Local Open Scope Z_scope.

(** ** Python exceptions and results *)

Inductive exn : Type :=
| TypeError
| KeyError (key : string)
| ValueError
| ZeroDivisionError
| IndexError
| IOError
| NameError.

Inductive result (A : Type) : Type :=
| Ok (a : A)
| Raise (e : exn).
Arguments Ok {A} a.
Arguments Raise {A} e.

Definition rbind {A B : Type} (m : result A) (k : A -> result B) : result B :=
  match m with
  | Ok a => k a
  | Raise e => Raise e
  end.

#[global] Instance result_ret : MRet result := fun A a => Ok a.
#[global] Instance result_bind : MBind result := fun A B k m => rbind m k.

Definition is_ok {A : Type} (m : result A) : bool :=
  match m with Ok _ => true | Raise _ => false end.

(** ** Complex numbers *)

Record complex : Type := mkC { re : R; im : R }.

Module C.
Local Open Scope R_scope.

Definition zero : complex := mkC 0 0.
Definition one : complex := mkC 1 0.
(** A Python float used where a complex number is expected. *)
Definition of_R (x : R) : complex := mkC x 0.
(** The literal [y j]. *)
Definition imag (y : R) : complex := mkC 0 y.
Definition add (a b : complex) : complex := mkC (re a + re b) (im a + im b).
Definition sub (a b : complex) : complex := mkC (re a - re b) (im a - im b).
Definition mul (a b : complex) : complex :=
  mkC (re a * re b - im a * im b) (re a * im b + im a * re b).
Definition scale (k : R) (a : complex) : complex := mkC (k * re a) (k * im a).
Definition conj (a : complex) : complex := mkC (re a) (- im a).
Definition norm2 (a : complex) : R := re a * re a + im a * im a.
Definition abs (a : complex) : R := sqrt (norm2 a).
Definition inv (a : complex) : complex :=
  mkC (re a / norm2 a) (- im a / norm2 a).
Definition div (a b : complex) : complex := mul a (inv b).

Definition eq_dec (a b : complex) : {a = b} + {a <> b}.
Proof.
  destruct a as [ar ai], b as [br bi].
  destruct (Req_dec_T ar br) as [Hr | Hr];
    [destruct (Req_dec_T ai bi) as [Hi | Hi] |].
  - left. now subst.
  - right. intros H. now inversion H.
  - right. intros H. now inversion H.
Defined.

(** Division of Python complex scalars raises on a zero divisor. *)
Definition pydiv (a b : complex) : result complex :=
  if eq_dec b zero then Raise ZeroDivisionError else Ok (div a b).
End C.

(** Division of Python floats raises on a zero divisor. *)
Definition py_fdiv (a b : R) : result R :=
  if Req_dec_T b 0 then Raise ZeroDivisionError else Ok (a / b)%R.

(** [int(x)] truncates towards zero. *)
Definition py_int (q : Q) : Z := Z.quot (Qnum q) (Zpos (Qden q)).

(** ** numpy helpers *)

(** [numpy.linspace(start, stop, num)] with the end point included: no
    sample for [num <= 0], the start alone for [num = 1]. *)
Definition linspace (start stop : R) (num : Z) : list R :=
  if num <=? 0 then []
  else if num =? 1 then [start]
  else
    let step := ((stop - start) / IZR (num - 1))%R in
    map (fun i : nat => (INR i * step + start)%R) (seq 0 (Z.to_nat num)).

(** [numpy.ones(k)] refuses a negative dimension. *)
Definition np_ones (k : Z) : result (list R) :=
  if k <? 0 then Raise ValueError else Ok (repeat 1%R (Z.to_nat k)).

(** ** Windowing *)

Definition taper_frac (npts : Z) (p : Q) : Z :=
  if Qeq_bool p 0 || Qeq_bool p 1
  then py_int (inject_Z npts * p / 2)
  else py_int (inject_Z npts * p / 2) + 1.

Definition cosTaper (npts : Z) (p : Q) : result (list R) :=
  let frac := taper_frac npts p in
  let rise := map (fun t => (0.5 * (1 + cos t))%R) (linspace PI (2 * PI) frac) in
  middle ← np_ones (npts - 2 * frac);
  let fall := map (fun t => (0.5 * (1 + cos t))%R) (linspace 0 PI frac) in
  Ok (rise ++ middle ++ fall).

(** ** Poles and zeros dictionaries *)

Inductive pyval : Type :=
| VFloat (x : R)
| VComplexList (l : list complex)
| VStr (s : string)
| VDate (year julday : Z).

Definition getitem (d : gmap string pyval) (key : string) : result pyval :=
  match d !! key with
  | Some v => Ok v
  | None => Raise (KeyError key)
  end.

Definition as_float (v : pyval) : result R :=
  match v with VFloat x => Ok x | _ => Raise TypeError end.

Definition as_complex_list (v : pyval) : result (list complex) :=
  match v with VComplexList l => Ok l | _ => Raise TypeError end.

(** The second pole is written [-6.283 - 4.7124] in the source: a
    difference of two floats. *)
Definition WOODANDERSON : gmap string pyval :=
  <["poles" := VComplexList
               [C.add (C.of_R (-6.283)) (C.imag 4.7124);
                C.of_R (-6.283 - 4.7124)]]>
  (<["zeros" := VComplexList [C.add (C.of_R 0) (C.imag 0)]]>
  (<["gain" := VFloat 1.0]>
  (<["sensitivity" := VFloat 2080]> ∅))).

(** ** PAZ frequency-response model *)

Section Polynomials.
(** Coefficient lists, highest degree first, as numpy has them. *)

(** [numpy.convolve(a, [1, -r])]. *)
Fixpoint conv_linear_from (carry : complex) (a : list complex) (r : complex)
  : list complex :=
  match a with
  | [] => [C.sub C.zero (C.mul r carry)]
  | c :: a' => C.sub c (C.mul r carry) :: conv_linear_from c a' r
  end.

Definition conv_linear (a : list complex) (r : complex) : list complex :=
  conv_linear_from C.zero a r.

(** [numpy.poly(roots)]: start from [[1]] and convolve one root at a
    time. *)
Definition poly (roots : list complex) : list complex :=
  fold_left conv_linear roots [C.one].

(** [numpy.polyval(p, x)], Horner's scheme. *)
Definition polyval (p : list complex) (x : complex) : complex :=
  fold_left (fun y c => C.add (C.mul y x) c) p C.zero.

(** [scipy.signal.zpk2tf(z, p, k)]. *)
Definition zpk2tf (z p : list complex) (k : R)
  : list complex * list complex :=
  (map (C.scale k) (poly z), poly p).

(** [scipy.signal.freqs(b, a, worN)]: the response at [s = j w]. *)
Definition freqs (b a : list complex) (worN : list R)
  : list R * list complex :=
  (worN,
   map (fun w => let s := C.imag w in C.div (polyval b s) (polyval a s))
       worN).
End Polynomials.

Inductive freq_resp : Type :=
| Resp (h : list complex)
| RespFreq (h : list complex) (f : list R).

Definition resp_h (r : freq_resp) : list complex :=
  match r with Resp h => h | RespFreq h _ => h end.

(** The branch that turns a scalar denominator [1.0] into [[1.0]] has no
    counterpart: [poly] always yields a coefficient list here. *)
Definition pazToFreqResp (poles zeros : list complex) (scale_fac t_samp : R)
    (nfft : Z) (freq pitsa : bool) : result freq_resp :=
  let n := nfft / 2 in
  let '(b, a) := zpk2tf zeros poles scale_fac in
  fy ← py_fdiv 1 (t_samp * 2.0);
  let f := linspace 0 fy (n + 1) in
  let '(_w, h) := freqs b a (map (fun x => (x * 2 * PI)%R) f) in
  let h := if pitsa then map C.conj h else h in
  if freq then Ok (RespFreq h f) else Ok (Resp h).

Fixpoint foldM {A B : Type} (f : B -> A -> result B) (l : list A) (b : B)
  : result B :=
  match l with
  | [] => Ok b
  | a :: l' => b' ← f b a; foldM f l' b'
  end.

Definition paz2AmpValueOfFreqResp (paz : gmap string pyval) (freq : R)
  : result R :=
  let jw := mkC 0 (2 * PI * freq) in
  let fac := mkC 1 0 in
  zeros ← getitem paz "zeros" ≫= as_complex_list;
  let fac := fold_left (fun fac zero => C.mul fac (C.sub jw zero)) zeros fac in
  poles ← getitem paz "poles" ≫= as_complex_list;
  fac ← foldM (fun fac pole => C.pydiv fac (C.sub jw pole)) poles fac;
  gain ← getitem paz "gain" ≫= as_float;
  Ok (C.abs fac * gain)%R.

(** ** Water-level inversion *)

Definition Rltb (a b : R) : bool := if Rlt_dec a b then true else false.
Definition Reqb (a b : R) : bool := if Req_dec_T a b then true else false.

(** [a.max()] of a numpy array; an empty array has no maximum. *)
Definition np_max (a : list R) : result R :=
  match a with
  | [] => Raise ValueError
  | x :: a' => Ok (fold_left Rmax a' x)
  end.

Definition waterlevel (spec : list complex) (wlev : R) : result R :=
  m ← np_max (map C.abs spec);
  Ok (m * Rpower 10.0 (- wlev / 20.0))%R.

(** [specInv] works in place: the first component is the content of
    [spec] when the call ends, the second what the call returns or
    raises. *)
Definition specInv (spec : list complex) (wlev : R)
  : list complex * result Z :=
  match waterlevel spec wlev with
  | Raise e => (spec, Raise e)
  | Ok swamp =>
      let sqrt_len := map C.abs spec in
      let idx := map (fun a => Rltb a swamp && Rltb 0 a) sqrt_len in
      let spec :=
        map (fun '(hit, (a, s)) =>
               if hit : bool then C.scale (swamp / a) s else s)
            (combine idx (combine sqrt_len spec)) in
      let found := Z.of_nat (length (filter (fun hit : bool => hit) idx)) in
      let sqrt_len := map C.abs spec in
      let inn := map (fun a => Rltb 0 a) sqrt_len in
      let spec :=
        map (fun '(hit, s) => if hit : bool then C.div (mkC 1 0) s else s)
            (combine inn spec) in
      let spec :=
        map (fun '(a, s) => if Reqb a 0 then mkC 0 0 else s)
            (combine sqrt_len spec) in
      (spec, Ok found)
  end.

(** ** Magnitude estimation *)

Definition log10 (x : R) : R := (ln x / ln 10)%R.

Definition estimateWoodAndersonAmplitude (paz : gmap string pyval)
    (amplitude timespan : R) : result R :=
  freq ← py_fdiv 1.0 (2 * timespan);
  let wa_ampl := (amplitude / 2.0)%R in
  resp ← paz2AmpValueOfFreqResp paz freq;
  sens ← getitem paz "sensitivity" ≫= as_float;
  wa_ampl ← py_fdiv wa_ampl (resp * sens);
  wa_resp ← paz2AmpValueOfFreqResp WOODANDERSON freq;
  wa_sens ← getitem WOODANDERSON "sensitivity" ≫= as_float;
  let wa_ampl := (wa_ampl * (wa_resp * wa_sens))%R in
  let wa_ampl := (wa_ampl * 1000)%R in
  Ok wa_ampl.

(** An argument that is either one reading or a list (or tuple) of
    readings. *)
Inductive reading (A : Type) : Type :=
| One (a : A)
| Many (l : list A).
Arguments One {A} a.
Arguments Many {A} l.

Definition to_list {A : Type} (r : reading A) : list A :=
  match r with One a => [a] | Many l => l end.

Fixpoint zip3 {A B D : Type} (la : list A) (lb : list B) (ld : list D)
  : list (A * B * D) :=
  match la, lb, ld with
  | a :: la', b :: lb', d :: ld' => (a, b, d) :: zip3 la' lb' ld'
  | _, _, _ => []
  end.

Definition estimateMagnitude (paz : reading (gmap string pyval))
    (amplitude timespan : reading R) (h_dist : R) : result R :=
  let paz := to_list paz in
  let amplitude := to_list amplitude in
  let timespan := to_list timespan in
  '(wa_ampl_mean, count) ←
    foldM (fun '(wa_ampl_mean, count) '(paz, amplitude, timespan) =>
             wa ← estimateWoodAndersonAmplitude paz amplitude timespan;
             Ok ((wa_ampl_mean + wa)%R, count + 1))
          (zip3 paz amplitude timespan) (0.0%R, 0);
  wa_ampl_mean ← py_fdiv wa_ampl_mean (IZR count);
  let magnitude :=
    (log10 wa_ampl_mean + log10 (h_dist / 100.0)
     + 0.00301 * (h_dist - 100.0) + 3.0)%R in
  Ok magnitude.

(** ** numpy arrays, transforms and helpers of the simulation engine *)

(** In-place arithmetic [a op= b] broadcasts a one-element [b] and
    otherwise needs equal lengths. *)
Definition broadcast2 {A B : Type} (f : A -> B -> A) (a : list A) (b : list B)
  : result (list A) :=
  if (length a =? length b)%nat then Ok (map (fun '(x, y) => f x y) (combine a b))
  else match b with
       | [y] => Ok (map (fun x => f x y) a)
       | _ => Raise ValueError
       end.

Definition Rsum (l : list R) : R := fold_right Rplus 0%R l.
Definition Csum (l : list complex) : complex := fold_right C.add C.zero l.
Definition mean (a : list R) : R := (Rsum a / INR (length a))%R.

(** [exp(j t)]. *)
Definition cis (t : R) : complex := mkC (cos t) (sin t).

(** [numpy.fft.rfft(a, n)]: the input is cut or zero-padded to [n]
    samples; [n // 2 + 1] bins are returned. *)
Definition rfft (a : list R) (n : Z) : result (list complex) :=
  if n <? 1 then Raise ValueError
  else
    let m := Z.to_nat n in
    let x := firstn m a ++ repeat 0%R (m - length a) in
    Ok (map (fun k : nat =>
               Csum (map (fun '(j, xj) =>
                            C.scale xj (cis (- (2 * PI * INR j * INR k / INR m))))
                         (combine (seq 0 m) x)))
            (seq 0 (Z.to_nat (n / 2 + 1)))).

(** [numpy.fft.irfft(spec)]: [2 * (len(spec) - 1)] real samples from the
    Hermitian extension of [spec]. *)
Definition irfft (spec : list complex) : result (list R) :=
  let m := length spec in
  let n := (2 * (m - 1))%nat in
  if (n <? 1)%nat then Raise ValueError
  else
    let bin (k : nat) : complex :=
      if (k <? m)%nat then nth k spec C.zero
      else C.conj (nth (n - k) spec C.zero) in
    Ok (map (fun j : nat =>
               (re (Csum (map (fun k : nat =>
                                 C.mul (bin k) (cis (2 * PI * INR j * INR k / INR n)))
                              (seq 0 n))) / INR n)%R)
            (seq 0 n)).

(** Modelled from the spec: [obspy.signal.detrend.simple] is not among the
    sources; it subtracts the line through the first and the last sample. *)
Definition simpleDetrend (data : list R) : result (list R) :=
  match data with
  | [] => Raise IndexError
  | x1 :: _ =>
      let ndat := length data in
      let x2 := List.last data x1 in
      Ok (map (fun '(i, x) =>
                 (x - (x1 + INR i * (x2 - x1) / INR (ndat - 1)))%R)
              (combine (seq 0 ndat) data))
  end.

(** Modelled from the spec: [obspy.signal.util.nextpow2] is not among the
    sources; it yields the next power of two at or above its argument. *)
Definition nextpow2 (i : Z) : result Z :=
  if i <=? 0 then Raise ValueError else Ok (2 ^ Z.log2_up i).

(** The frequency-domain cosine window of the pre-filter; the three
    assignments happen in this order. *)
Definition cos_win (pre_filt : R * R * R * R) (freqs : list R) : list R :=
  let '(fl1, fl2, fl3, fl4) := pre_filt in
  map (fun f : R =>
         let w := 0%R in
         let w := if Rltb f fl1 then w else if Rltb f fl2
                  then (0.5 * (1 - cos (PI * (fl1 - f) / (fl2 - fl1))))%R
                  else w in
         let w := if Rltb f fl2 then w else if Rltb fl3 f then w else 1.0%R in
         let w := if Rltb fl3 f then (if Rltb fl4 f then w
                  else (0.5 * (1 + cos (PI * (fl3 - f) / (fl4 - fl3))))%R)
                  else w in
         w)
      freqs.

(** ** The world: Python objects and files *)

Definition loc := nat.

Inductive obj : Type :=
| ArrR (a : list R)
| ArrC (a : list complex)
| Dict (d : gmap string pyval).

Record world : Type := mkWorld {
  heap : gmap loc obj;
  files : gmap string (list string)
}.

Definition M (A : Type) : Type := world -> result A * world.

#[global] Instance M_ret : MRet M := fun A a w => (Ok a, w).
#[global] Instance M_bind : MBind M := fun A B k m w =>
  match m w with
  | (Ok a, w') => k a w'
  | (Raise e, w') => (Raise e, w')
  end.

Definition lift {A : Type} (r : result A) : M A := fun w => (r, w).
Definition raise {A : Type} (e : exn) : M A := lift (Raise e).

Definition alloc (o : obj) : M loc := fun w =>
  let l := fresh (dom (heap w)) in
  (Ok l, mkWorld (<[l := o]> (heap w)) (files w)).

Definition deref (l : loc) : M obj := fun w =>
  match heap w !! l with
  | Some o => (Ok o, w)
  | None => (Raise TypeError, w)
  end.

Definition store (l : loc) (o : obj) : M unit := fun w =>
  (Ok tt, mkWorld (<[l := o]> (heap w)) (files w)).

Definition load_real (l : loc) : M (list R) :=
  o ← deref l; match o with ArrR a => mret a | _ => raise TypeError end.

Definition load_complex (l : loc) : M (list complex) :=
  o ← deref l; match o with ArrC a => mret a | _ => raise TypeError end.

Definition load_dict (l : loc) : M (gmap string pyval) :=
  o ← deref l; match o with Dict d => mret d | _ => raise TypeError end.

(** Truth value of an object: an empty dictionary is false; an array of
    more than one element has no truth value. *)
Definition obj_truth (o : obj) : result bool :=
  match o with
  | Dict d => Ok (negb (bool_decide (dom d = ∅)))
  | ArrR [] => Ok false
  | ArrR [x] => Ok (negb (Reqb x 0))
  | ArrC [] => Ok false
  | ArrC [z] => Ok (if C.eq_dec z C.zero then false else true)
  | _ => Raise ValueError
  end.

Definition truth (x : option loc) : M bool :=
  match x with
  | None => mret false
  | Some l => o ← deref l; lift (obj_truth o)
  end.

(** ** Files *)

Definition read_file (name : string) : M (list string) := fun w =>
  match files w !! name with
  | Some content => (Ok content, w)
  | None => (Raise IOError, w)
  end.

(** [NamedTemporaryFile()]: a new, empty file under a name not in use. *)
Definition named_temporary_file : M string := fun w =>
  let name := fresh (dom (files w)) in
  (Ok name, mkWorld (heap w) (<[name := []]> (files w))).

Definition write_file (name : string) (content : list string) : M unit :=
  fun w => (Ok tt, mkWorld (heap w) (<[name := content]> (files w))).

(** [try: os.remove(name) except: pass]. *)
Definition remove_quietly (name : string) : M unit := fun w =>
  (Ok tt, mkWorld (heap w) (delete name (files w))).

(** ** RESP evaluation *)

Definition ceil (x : R) : Z := - Int_part (- x).

(** [numpy.arange(start, stop, step)]. *)
Definition arange (start stop step : R) : list R :=
  map (fun i : nat => (start + INR i * step)%R)
      (seq 0 (Z.to_nat (ceil ((stop - start) / step)))).

Record response : Type := mkResponse {
  rvec : list complex;
  rfreqs : list R
}.

Definition set_last_real (h : list complex) : result (list complex) :=
  match h with
  | [] => Raise IndexError
  | z :: _ =>
      Ok (removelast h ++ [C.add (C.of_R (re (List.last h z))) (C.imag 0.0)])
  end.

Section Engine.
(** The foreign function [clibevresp.evresp]: station, channel, network,
    location, date (year, day of year), units, file name, frequencies
    and verbosity flag, reading the files; a NULL result is [None].
    File content is kept as a list of lines, so that joining the lines
    again with the separator of the platform leaves it as it is. *)
Variable evresp :
  string -> string -> string -> string -> Z * Z -> string -> string ->
  list R -> string -> gmap string (list string) -> option response.

Definition call_evresp (sta cha net locid : string) (datime : Z * Z)
    (unts fn : string) (freqs : list R) (vbs : string) : M response :=
  fun w =>
    match evresp sta cha net locid datime unts fn freqs vbs (files w) with
    | Some res => (Ok res, w)
    | None => (Raise ValueError, w)
    end.

Definition evalresp (t_samp : R) (nfft : Z) (filename : string)
    (date : Z * Z) (station channel network locid units : string)
    (freq debug : bool) : M freq_resp :=
  data ← read_file filename;
  tempfile ← named_temporary_file;
  _ ← write_file tempfile data;
  let n := nfft / 2 in
  fy ← lift (py_fdiv 1 (t_samp * 2.0));
  step ← lift (py_fdiv fy (IZR n));
  let freqs := arange 0 (fy + step) step in
  let vbs := if debug then "-v" else "" in
  res ← call_evresp station channel network locid date units tempfile
                    freqs vbs;
  let h := rvec res in
  let f := rfreqs res in
  let h := map C.conj h in
  h ← lift (set_last_real h);
  _ ← remove_quietly tempfile;
  if freq then mret (RespFreq h f) else mret (Resp h).

(** ** The simulation engine *)

Definition as_str (v : pyval) : result string :=
  match v with VStr s => Ok s | _ => Raise TypeError end.

Definition as_date (v : pyval) : result (Z * Z) :=
  match v with VDate y j => Ok (y, j) | _ => Raise TypeError end.

(** [not paz_remove and not paz_simulate and not seedresp], evaluated
    from left to right and only as far as needed. *)
Definition nothing_given (paz_remove paz_simulate seedresp : option loc)
  : M bool :=
  r ← truth paz_remove;
  if r : bool then mret false
  else (s ← truth paz_simulate;
        if s : bool then mret false
        else (e ← truth seedresp; mret (negb e))).

Definition check_paz (d : option loc) : M unit :=
  match d with
  | None => mret tt
  | Some l =>
      o ← deref l;
      match o with
      | Dict d =>
          lift (foldM (fun (_ : unit) key =>
                         match d !! key with
                         | Some _ => Ok tt
                         | None => Raise (KeyError key)
                         end)
                      ["poles"; "zeros"; "gain"] tt)
      | _ => raise TypeError
      end
  end.

Definition paz_item {A : Type} (d : option loc) (key : string)
    (as_a : pyval -> result A) : M A :=
  match d with
  | None => raise TypeError
  | Some l => d ← load_dict l; lift (getitem d key ≫= as_a)
  end.

Definition alloc_resp (r : freq_resp) : M (loc * list R) :=
  match r with
  | RespFreq h f => l ← alloc (ArrC h); mret (l, f)
  | Resp _ => raise TypeError
  end.

Definition seisSim (data : loc) (samp_rate : R)
    (paz_remove paz_simulate : option loc)
    (remove_sensitivity simulate_sensitivity : bool) (water_level : R)
    (zero_mean taper : bool) (taper_fraction : Q)
    (pre_filt : option (R * R * R * R)) (seedresp : option loc)
    (nfft_pow2 : bool) : M loc :=
  none ← nothing_given paz_remove paz_simulate seedresp;
  if none : bool then raise TypeError else
  _ ← check_paz paz_remove;
  _ ← check_paz paz_simulate;
  delta ← lift (py_fdiv 1.0 samp_rate);
  a ← load_real data;
  let ndat := Z.of_nat (length a) in
  data ← alloc (ArrR a);
  _ ← (if zero_mean
       then a ← load_real data;
            store data (ArrR (map (fun x => (x - mean a)%R) a))
       else mret tt);
  _ ← (if taper
       then win ← lift (cosTaper ndat taper_fraction);
            a ← load_real data;
            a ← lift (broadcast2 Rmult a win);
            store data (ArrR a)
       else mret tt);
  nfft ← (if nfft_pow2 then lift (nextpow2 (2 * ndat))
          else if Z.odd ndat then mret (2 * (ndat + 1))
          else mret (2 * ndat));
  a ← load_real data;
  spec ← lift (rfft a nfft);
  data ← alloc (ArrC spec);
  rm ← truth paz_remove;
  fr ← (if rm : bool
        then poles ← paz_item paz_remove "poles" as_complex_list;
             zeros ← paz_item paz_remove "zeros" as_complex_list;
             gain ← paz_item paz_remove "gain" as_float;
             r ← lift (pazToFreqResp poles zeros gain delta nfft true true);
             fr ← alloc_resp r; mret (Some fr)
        else mret None);
  sr ← truth seedresp;
  fr ← (if sr : bool
        then filename ← paz_item seedresp "filename" as_str;
             date ← paz_item seedresp "date" as_date;
             units ← paz_item seedresp "units" as_str;
             r ← evalresp delta nfft filename date "*" "*" "*" "*" units
                          true false;
             fr ← alloc_resp r; mret (Some fr)
        else mret fr);
  rm ← truth paz_remove;
  go ← (if rm : bool then mret true else truth seedresp);
  _ ← (if go : bool
       then
         match fr with
         | None => raise NameError
         | Some (freq_response, freqs) =>
             _ ← match pre_filt with
                 | Some corners =>
                     d ← load_complex data;
                     d ← lift (broadcast2 (fun z k => C.scale k z) d
                                          (cos_win corners freqs));
                     store data (ArrC d)
                 | None => mret tt
                 end;
             spec ← load_complex freq_response;
             let '(spec, found) := specInv spec water_level in
             _ ← store freq_response (ArrC spec);
             _ ← lift found;
             d ← load_complex data;
             inv ← load_complex freq_response;
             d ← lift (broadcast2 C.mul d (map C.conj inv));
             store data (ArrC d)
         end
       else mret tt);
  ps ← truth paz_simulate;
  _ ← (if ps : bool
       then poles ← paz_item paz_simulate "poles" as_complex_list;
            zeros ← paz_item paz_simulate "zeros" as_complex_list;
            gain ← paz_item paz_simulate "gain" as_float;
            r ← lift (pazToFreqResp poles zeros gain delta nfft false true);
            d ← load_complex data;
            d ← lift (broadcast2 C.mul d (map C.conj (resp_h r)));
            store data (ArrC d)
       else mret tt);
  d ← load_complex data;
  x ← lift (irfft d);
  data ← alloc (ArrR (firstn (Z.to_nat ndat) x));
  a ← load_real data;
  a ← lift (simpleDetrend a);
  _ ← store data (ArrR a);
  rm ← truth paz_remove;
  _ ← (if rm && remove_sensitivity
       then sens ← paz_item paz_remove "sensitivity" as_float;
            a ← load_real data;
            store data (ArrR (map (fun x => (x / sens)%R) a))
       else mret tt);
  ps ← truth paz_simulate;
  _ ← (if ps && simulate_sensitivity
       then sens ← paz_item paz_simulate "sensitivity" as_float;
            a ← load_real data;
            store data (ArrR (map (fun x => (x * sens)%R) a))
       else mret tt);
  mret data.
End Engine.

(** ** Definitions used to state the properties *)

(** What [specInv] does to one bin, once the water level is known. *)
Definition inv_bin (swamp : R) (s : complex) : complex :=
  let a := C.abs s in
  let s1 := if Rltb a swamp && Rltb 0 a then C.scale (swamp / a)%R s else s in
  let a1 := C.abs s1 in
  let s2 := if Rltb 0 a1 then C.div (mkC 1 0) s1 else s1 in
  if Reqb a1 0 then mkC 0 0 else s2.

(** An instrument without poles and zeros, of unit gain and sensitivity. *)
Definition flat_paz : gmap string pyval :=
  <["poles" := VComplexList []]>
  (<["zeros" := VComplexList []]>
  (<["gain" := VFloat 1.0]>
  (<["sensitivity" := VFloat 1.0]> ∅))).

Definition Cprod (l : list complex) : complex := fold_right C.mul C.one l.

(** The analog response of the rational transfer function given by
    zeros, poles and gain, in the words of the specification:
    H(s) = gain * prod (s - zero) / prod (s - pole). *)
Definition analog_response (zeros poles : list complex) (gain : R)
    (s : complex) : complex :=
  C.div (C.scale gain (Cprod (map (C.sub s) zeros)))
        (Cprod (map (C.sub s) poles)).

(** The [nfft/2 + 1] frequencies from 0 to the Nyquist frequency
    [1 / (2 * t_samp)], in equal steps. *)
Definition nyquist_grid (t_samp : R) (nfft : Z) : list R :=
  map (fun i : nat => (INR i * (1 / (t_samp * 2)) / IZR (nfft / 2))%R)
      (seq 0 (Z.to_nat (nfft / 2 + 1))).

(** What the caller owns when a call starts from [w0] is found unchanged
    in [w]: every object of the heap and every file. *)
Definition frame (w0 w : world) : Prop :=
  (forall l : loc, l ∈ dom (heap w0) -> heap w !! l = heap w0 !! l)
  /\ (forall p : string, p ∈ dom (files w0) -> files w !! p = files w0 !! p).

(** A computation that keeps [frame w0] and whose results satisfy [Φ]. *)
Definition respects (w0 : world) {A : Type} (m : M A) (Φ : A -> Prop)
  : Prop :=
  forall w : world,
    frame w0 w ->
    frame w0 (snd (m w)) /\ forall a : A, fst (m w) = Ok a -> Φ a.

(** Objects and files that did not exist in [w0]: made during the call. *)
Definition local_loc (w0 : world) (l : loc) : Prop := l ∉ dom (heap w0).
Definition local_file (w0 : world) (p : string) : Prop := p ∉ dom (files w0).
Definition local_resp (w0 : world) (fr : option (loc * list R)) : Prop :=
  match fr with
  | Some (l, _) => local_loc w0 l
  | None => True
  end.
Definition any {A : Type} (_ : A) : Prop := True.

(** An evaluator library that finds no response: [evresp] returns NULL. *)
Definition evresp_null :
  string -> string -> string -> string -> Z * Z -> string -> string ->
  list R -> string -> gmap string (list string) -> option response :=
  fun _ _ _ _ _ _ _ _ _ _ => None.

Definition resp_world : world :=
  mkWorld ∅ (<["RESP.ANMO" := ["B050F03     Station:     ANMO"]]> ∅).

(** A world with a trace of two samples at location 0 and the response
    dictionary [flat_paz] at location 1. *)
Definition sim_world : world :=
  mkWorld (<[0%nat := ArrR [1%R; 2%R]]> (<[1%nat := Dict flat_paz]> ∅)) ∅.

(** ** Further functions of the module *)

(** [detrend] works in place and returns nothing: the first component is
    the content of [trace] when the call ends.  The deprecation warning
    of its decorator is not modelled. *)
Definition detrend (trace : list R) : list R * result unit :=
  match trace with
  | [] => (trace, Raise IndexError)
  | x1 :: _ =>
      let ndat := length trace in
      let x2 := List.last trace x1 in
      (map (fun '(i, x) =>
              (x - (x1 + INR i * (x2 - x1) / INR (ndat - 1)))%R)
           (combine (seq 0 ndat) trace),
       Ok tt)
  end.

(** [math.sqrt] refuses a negative argument. *)
Definition py_sqrt (x : R) : result R :=
  if Rlt_dec x 0 then Raise ValueError else Ok (sqrt x).

Definition Cneg (z : complex) : complex := mkC (- re z) (- im z).

Definition cornFreq2Paz (fc damp : R) : result (gmap string pyval) :=
  s ← py_sqrt (1 - damp * damp);
  let poles :=
    [C.scale fc (C.scale PI (C.scale 2
       (Cneg (C.add (C.of_R damp) (C.scale s (C.imag 1))))))] in
  s ← py_sqrt (1 - damp * damp);
  let poles := poles ++
    [C.scale fc (C.scale PI (C.scale 2
       (Cneg (C.sub (C.of_R damp) (C.scale s (C.imag 1))))))] in
  Ok (<["poles" := VComplexList poles]>
      (<["zeros" := VComplexList [C.imag 0; C.imag 0]]>
      (<["gain" := VFloat 1]>
      (<["sensitivity" := VFloat 1.0]> ∅)))).


(** An evaluator library that answers every request with [res]. *)
Definition evresp_const (res : response) :
  string -> string -> string -> string -> Z * Z -> string -> string ->
  list R -> string -> gmap string (list string) -> option response :=
  fun _ _ _ _ _ _ _ _ _ _ => Some res.

(** Hoare triples over the heap for the runs that return: from a heap
    that satisfies [P], a run of [m] that returns [a] ends in a heap that
    satisfies [Q a]. *)
Definition hoare {A : Type} (P : gmap loc obj -> Prop) (m : M A)
    (Q : A -> gmap loc obj -> Prop) : Prop :=
  forall (w : world) (a : A) (w' : world),
    P (heap w) -> m w = (Ok a, w') -> Q a (heap w').

(** Computations that leave the heap as it is. *)
Definition heap_same {A : Type} (m : M A) : Prop :=
  forall w : world, heap (snd (m w)) = heap w.

(** The object at [l0] exists and satisfies [Φ]. *)
Definition holds (l0 : loc) (Φ : obj -> Prop) (h : gmap loc obj) : Prop :=
  exists o : obj, h !! l0 = Some o /\ Φ o.

Definition complex_array_of (n : nat) (o : obj) : Prop :=
  exists d : list complex, o = ArrC d /\ length d = n.

Definition real_array_of (n : nat) (o : obj) : Prop :=
  exists a : list R, o = ArrR a /\ length a = n.

(** A descriptor that counts as absent: [None] or an empty dictionary. *)
Definition absent (w : world) (x : option loc) : Prop :=
  x = None \/ exists l : loc, x = Some l /\ heap w !! l = Some (Dict ∅).

(** ** Station metadata ([obspy/station/station.py]) *)

Module Station.

(** Of a channel, a site and a station only the attributes that
    [get_contents] and [__getitem__] read are kept; they are taken to be
    strings. *)
Record SeismicChannel : Type := mkChannel {
  location_code : string;
  channel_code : string
}.

Record Site : Type := mkSite { site_name : option string }.

Record SeismicStation : Type := mkStation {
  code : string;
  site : option Site;
  channels : list SeismicChannel
}.

(** Truth value of [self.site and self.site.name]: the name when there is
    a site with a name that is not empty. *)
Definition usable_site_name (self : SeismicStation) : option string :=
  match site self with
  | Some s =>
      match site_name s with
      | Some n => if String.eqb n "" then None else Some n
      | None => None
      end
  | None => None
  end.

Definition channel_entry (self : SeismicStation) (channel : SeismicChannel)
  : string :=
  String.append (code self)
    (String.append "."
       (String.append (location_code channel)
          (String.append "." (channel_code channel)))).

Definition get_contents (self : SeismicStation) : gmap string (list string) :=
  let site_name := usable_site_name self in
  let desc :=
    String.append (code self)
      (String.append " ("
         (String.append (match site_name with Some n => n | None => "" end)
                        ")")) in
  let content_dict : gmap string (list string) :=
    <["stations" := [desc]]> (<["channels" := []]> ∅) in
  fold_left
    (fun (content_dict : gmap string (list string)) channel =>
       match content_dict !! "channels" with
       | Some names =>
           <["channels" := names ++ [channel_entry self channel]]> content_dict
       | None => content_dict
       end)
    (channels self) content_dict.

(** Indexing of a Python list by an int: negative indices count from the
    end. *)
Definition py_index {A : Type} (l : list A) (index : Z) : result A :=
  let n := Z.of_nat (length l) in
  let i := if index <? 0 then index + n else index in
  if (0 <=? i) && (i <? n)
  then match nth_error l (Z.to_nat i) with
       | Some a => Ok a
       | None => Raise IndexError
       end
  else Raise IndexError.

Definition getitem (self : SeismicStation) (index : Z)
  : result SeismicChannel :=
  py_index (channels self) index.

End Station.

(** * Properties *)

(** ** The Wood-Anderson reference instrument *)

(** C1: the pole list of [WOODANDERSON] is not the conjugate pair
    -6.283 +/- 4.7124j.  The second entry of the source lacks its [j], so
    it is the real number -6.283 - 4.7124 = -10.9954. *)
Theorem WOODANDERSON_poles :
  getitem WOODANDERSON "poles"
  = Ok (VComplexList [mkC (-6.283) 4.7124; mkC (-10.9954) 0])
  /\ getitem WOODANDERSON "poles"
     <> Ok (VComplexList [mkC (-6.283) 4.7124; mkC (-6.283) (-4.7124)]).
Proof.
  assert (E : getitem WOODANDERSON "poles"
              = Ok (VComplexList [mkC (-6.283) 4.7124; mkC (-10.9954) 0])).
  { unfold getitem, WOODANDERSON. rewrite lookup_insert_eq.
    unfold C.add, C.of_R, C.imag; simpl.
    do 3 f_equal; [f_equal; lra | do 2 f_equal; lra]. }
  split; [exact E |].
  rewrite E. intros H. inversion H as [[Hre Him]]. lra.
Qed.

(** ** Cosine taper *)

(** C4: [cosTaper] does not return for every length and fraction: for one
    sample and fraction 0.5 the taper length is 1 at each end, the middle
    would have -1 samples and [numpy.ones] raises. *)
Theorem cosTaper_one_sample_raises :
  (0 <= 1)%Z /\ (0 <= 1#2 <= 1)%Q /\ cosTaper 1 (1#2) = Raise ValueError.
Proof.
  repeat split; try reflexivity; try discriminate.
Qed.

(** C10: with fraction 1.0 a window of two samples is [0, 1]: its two
    samples, which are also its central samples, differ, and the first
    one is 0. *)
Theorem cosTaper_two_samples_asymmetric :
  exists w : list R,
    cosTaper 2 1 = Ok w
    /\ w = [0%R; 1%R]
    /\ nth 0 w 0%R <> nth (2 - 1 - 0) w 0%R.
Proof.
  exists [0%R; 1%R]. split; [| split; [reflexivity | cbn; lra]].
  unfold cosTaper.
  change (taper_frac 2 1) with 1%Z. simpl.
  rewrite cos_PI, cos_0.
  do 2 f_equal; [lra | f_equal; lra].
Qed.

Section Taper.
Local Open Scope R_scope.

Lemma linspace_length (start stop : R) (num : Z) :
  length (linspace start stop num) = Z.to_nat num.
Proof.
  unfold linspace.
  destruct (Z.leb_spec num 0) as [H | H]; [cbn; lia |].
  destruct (Z.eqb_spec num 1) as [-> | _]; [reflexivity |].
  now rewrite length_map, length_seq.
Qed.



(** When they do not, it raises. *)
Lemma cosTaper_raises (npts : Z) (p : Q) :
  (npts < 2 * taper_frac npts p)%Z -> cosTaper npts p = Raise ValueError.
Proof.
  intros H. unfold cosTaper, np_ones.
  destruct (Z.ltb_spec (npts - 2 * taper_frac npts p) 0) as [_ | H']; [| lia].
  reflexivity.
Qed.





End Taper.

(** ** Configuration errors of the simulation engine *)

(** C5: without a removal response, a target response and a RESP
    descriptor, [seisSim] raises [TypeError] straight away, whatever the
    trace and the flags; the world is left as it was. *)
Theorem seisSim_nothing_specified :
  forall evresp (data : loc) (samp_rate : R)
         (remove_sensitivity simulate_sensitivity : bool) (water_level : R)
         (zero_mean taper : bool) (taper_fraction : Q)
         (pre_filt : option (R * R * R * R)) (nfft_pow2 : bool) (w : world),
    seisSim evresp data samp_rate None None remove_sensitivity
            simulate_sensitivity water_level zero_mean taper taper_fraction
            pre_filt None nfft_pow2 w
    = (Raise TypeError, w).
Proof.
  intros. unfold seisSim.
  assert (Hnone : nothing_given None None None w = (Ok true, w)).
  { unfold nothing_given, truth. reflexivity. }
  unfold mbind at 1, M_bind at 1. rewrite Hnone.
  reflexivity.
Qed.

(** ** Water-level inversion *)

Section SpecInv.
Local Open Scope R_scope.

Lemma specInv_bins (spec : list complex) (wlev swamp : R) :
  waterlevel spec wlev = Ok swamp ->
  fst (specInv spec wlev) = map (inv_bin swamp) spec.
Proof.
  intros Hw. unfold specInv. rewrite Hw. cbn [fst]. clear Hw.
  induction spec as [| s l IH]; [reflexivity |].
  cbn [map combine]. rewrite IH. reflexivity.
Qed.

Lemma specInv_raises (spec : list complex) (wlev : R) (e : exn) :
  waterlevel spec wlev = Raise e -> specInv spec wlev = (spec, Raise e).
Proof. intros Hw. unfold specInv. now rewrite Hw. Qed.

Lemma Rltb_true (a b : R) : a < b -> Rltb a b = true.
Proof. intros H. unfold Rltb. destruct (Rlt_dec a b); [reflexivity | lra]. Qed.

Lemma Rltb_false (a b : R) : b <= a -> Rltb a b = false.
Proof. intros H. unfold Rltb. destruct (Rlt_dec a b); [lra | reflexivity]. Qed.

Lemma Reqb_true (a b : R) : a = b -> Reqb a b = true.
Proof.
  intros H. unfold Reqb. destruct (Req_dec_T a b); [reflexivity | contradiction].
Qed.

Lemma Reqb_false (a b : R) : a <> b -> Reqb a b = false.
Proof.
  intros H. unfold Reqb. destruct (Req_dec_T a b); [contradiction | reflexivity].
Qed.

Lemma norm2_nonneg (z : complex) : 0 <= C.norm2 z.
Proof. unfold C.norm2. nra. Qed.

Lemma abs_nonneg (z : complex) : 0 <= C.abs z.
Proof. apply sqrt_pos. Qed.

Lemma abs_zero (z : complex) : C.abs z = 0 -> z = mkC 0 0.
Proof.
  intros H. unfold C.abs in H.
  apply sqrt_eq_0 in H; [| apply norm2_nonneg].
  destruct z as [a b]. unfold C.norm2 in H. simpl in H.
  assert (a = 0) by nra. assert (b = 0) by nra. now subst.
Qed.

Lemma abs_scale (k : R) (z : complex) :
  0 <= k -> C.abs (C.scale k z) = k * C.abs z.
Proof.
  intros Hk. unfold C.abs.
  replace (C.norm2 (C.scale k z)) with (k * k * C.norm2 z)
    by (unfold C.norm2, C.scale; simpl; ring).
  rewrite sqrt_mult; [| nra | apply norm2_nonneg].
  now rewrite sqrt_square.
Qed.

Lemma abs_reciprocal (z : complex) :
  0 < C.abs z -> C.abs (C.div (mkC 1 0) z) = / C.abs z.
Proof.
  intros Hz. unfold C.abs in *.
  assert (Hn : 0 < C.norm2 z).
  { destruct (Rle_lt_or_eq_dec _ _ (norm2_nonneg z)) as [H | H]; [exact H |].
    rewrite <- H, sqrt_0 in Hz. lra. }
  apply sqrt_lem_1.
  - apply norm2_nonneg.
  - left. now apply Rinv_0_lt_compat.
  - rewrite <- Rinv_mult, sqrt_sqrt by lra.
    unfold C.div, C.mul, C.inv, C.norm2 in *; cbn [re im].
    field. lra.
Qed.

Lemma fold_left_Rmax_ge (l : list R) (x : R) :
  x <= fold_left Rmax l x /\ Forall (fun y => y <= fold_left Rmax l x) l.
Proof.
  revert x. induction l as [| y l IH]; intros x; simpl.
  - split; [lra | constructor].
  - destruct (IH (Rmax x y)) as [H1 H2].
    pose proof (Rmax_l x y). pose proof (Rmax_r x y).
    split; [lra |]. constructor; [lra | exact H2].
Qed.

Lemma np_max_ge (a : list R) (m x : R) :
  np_max a = Ok m -> In x a -> x <= m.
Proof.
  destruct a as [| y a]; [discriminate |].
  intros [= <-] Hin.
  destruct (fold_left_Rmax_ge a y) as [H1 H2].
  destruct Hin as [<- | Hin]; [exact H1 |].
  rewrite Forall_forall in H2. apply H2.
  now apply list_elem_of_In.
Qed.

Lemma waterlevel_raises_empty (spec : list complex) (wlev : R) (e : exn) :
  waterlevel spec wlev = Raise e -> spec = [].
Proof.
  destruct spec; [reflexivity |]. discriminate.
Qed.

Lemma inv_bin_zero (swamp : R) (z : complex) :
  C.abs z = 0 -> inv_bin swamp z = mkC 0 0.
Proof.
  intros Hz. unfold inv_bin. rewrite Hz.
  rewrite (Rltb_false 0 0) by lra. rewrite andb_false_r. cbn zeta.
  rewrite Hz. now rewrite Reqb_true.
Qed.

Lemma inv_bin_bounded (swamp m : R) (s : complex) :
  0 <= swamp -> (0 < m -> 0 < swamp) -> C.abs s <= m ->
  inv_bin swamp s <> mkC 0 0 ->
  C.abs (inv_bin swamp s) <= 1 / swamp.
Proof.
  intros Hsw Hpos Hm Hnz.
  pose proof (abs_nonneg s) as Ha.
  unfold inv_bin in *.
  destruct (Rlt_dec 0 (C.abs s)) as [Hs | Hs].
  - assert (0 < swamp) by (apply Hpos; lra).
    rewrite (Rltb_true 0 (C.abs s)) in * by exact Hs.
    rewrite andb_true_r in *.
    destruct (Rlt_dec (C.abs s) swamp) as [Hlt | Hge].
    + rewrite (Rltb_true _ _ Hlt) in *. cbn zeta in *.
      assert (E : C.abs (C.scale (swamp / C.abs s) s) = swamp).
      { rewrite abs_scale; [field; lra |].
        apply Rlt_le, Rdiv_lt_0_compat; lra. }
      rewrite E in *.
      rewrite (Rltb_true 0 swamp), (Reqb_false swamp 0) in * by lra.
      rewrite abs_reciprocal by lra. rewrite E. lra.
    + rewrite (Rltb_false (C.abs s) swamp) in * by lra. cbn zeta in *.
      rewrite (Rltb_true 0 (C.abs s)), (Reqb_false (C.abs s) 0) in * by lra.
      rewrite abs_reciprocal by lra.
      unfold Rdiv. rewrite Rmult_1_l.
      apply Rinv_le_contravar; lra.
  - exfalso. apply Hnz.
    rewrite (Rltb_false 0 (C.abs s)) by lra.
    rewrite andb_false_r. cbn zeta.
    rewrite (Rltb_false 0 (C.abs s)) by lra.
    rewrite Reqb_true by lra. reflexivity.
Qed.

Lemma Rpower_10_pos (x : R) : 0 < Rpower 10.0 x.
Proof. unfold Rpower. apply exp_pos. Qed.

(** C6: whatever the spectrum and the water level, the array has the
    same length after [specInv] as before, and every bin whose
    magnitude was exactly zero holds exactly [0+0j] afterwards. *)
Theorem specInv_zero_bins (spec : list complex) (wlev : R) :
  length (fst (specInv spec wlev)) = length spec
  /\ forall (i : nat) (z : complex),
       nth_error spec i = Some z -> C.abs z = 0 ->
       nth_error (fst (specInv spec wlev)) i = Some (mkC 0 0).
Proof.
  destruct (waterlevel spec wlev) as [swamp | e] eqn:Hw.
  - rewrite (specInv_bins _ _ _ Hw). split.
    + apply length_map.
    + intros i z Hi Hz.
      rewrite nth_error_map, Hi. cbn. now rewrite inv_bin_zero.
  - rewrite (specInv_raises _ _ _ Hw). cbn [fst]. split; [reflexivity |].
    intros i z Hi _. apply waterlevel_raises_empty in Hw. subst spec.
    now destruct i.
Qed.

Lemma specInv_zero_bins_witness :
  nth_error (fst (specInv [mkC 0 0; mkC 3 4] 600)) 0 = Some (mkC 0 0).
Proof.
  apply (proj2 (specInv_zero_bins [mkC 0 0; mkC 3 4] 600) 0%nat (mkC 0 0)).
  - reflexivity.
  - unfold C.abs, C.norm2; simpl.
    replace (0 * 0 + 0 * 0) with 0 by lra. apply sqrt_0.
Defined.

(** C2, as the code has it: after the clamp-then-invert sequence every
    bin that is not zero has a magnitude of at most
    1 / (max(|input|) * 10^(-water_level/20)); the water level bounds
    the inverted spectrum from above. *)
Theorem specInv_bounded_by_water_level
    (spec : list complex) (wlev m : R) (i : nat) (z : complex) :
  np_max (map C.abs spec) = Ok m ->
  nth_error (fst (specInv spec wlev)) i = Some z ->
  z <> mkC 0 0 ->
  C.abs z <= 1 / (m * Rpower 10.0 (- wlev / 20.0)).
Proof.
  intros Hm Hi Hz.
  assert (Hw : waterlevel spec wlev = Ok (m * Rpower 10.0 (- wlev / 20.0))).
  { unfold waterlevel. now rewrite Hm. }
  rewrite (specInv_bins _ _ _ Hw), nth_error_map in Hi.
  destruct (nth_error spec i) as [s |] eqn:Hs; [| discriminate].
  injection Hi as <-.
  pose proof (Rpower_10_pos (- wlev / 20.0)) as Hp.
  assert (Hsm : C.abs s <= m).
  { apply (np_max_ge _ _ _ Hm), in_map. eapply nth_error_In, Hs. }
  pose proof (abs_nonneg s).
  apply (inv_bin_bounded _ m); auto; nra.
Qed.

Lemma abs_one : C.abs (mkC 1 0) = 1.
Proof.
  unfold C.abs, C.norm2; simpl.
  replace (1 * 1 + 0 * 0) with 1 by lra. apply sqrt_1.
Qed.

Lemma Rpower_10_minus_1 : Rpower 10.0 (- (20) / 20.0) = / 10.
Proof.
  replace (- (20) / 20.0) with (- (1)) by lra.
  replace 10.0 with 10 by lra.
  rewrite Rpower_Ropp, Rpower_1; lra.
Qed.

(** A one-bin spectrum [1+0j] at a water level of 20 dB: the level is
    0.1, nothing is clamped and the bin is inverted to [1+0j]. *)
Lemma specInv_unit_bin : fst (specInv [mkC 1 0] 20) = [mkC 1 0].
Proof.
  rewrite (specInv_bins _ _ (1 * Rpower 10.0 (- (20) / 20.0))).
  - cbn [map]. f_equal. unfold inv_bin. rewrite abs_one, Rpower_10_minus_1.
    rewrite (Rltb_false 1 (1 * / 10)) by lra. cbn [andb].
    rewrite abs_one. rewrite (Rltb_true 0 1), (Reqb_false 1 0) by lra.
    unfold C.div, C.mul, C.inv, C.norm2; simpl. f_equal; field.
  - unfold waterlevel. cbn [map np_max fold_left mbind result_bind rbind].
    now rewrite abs_one.
Qed.

Lemma np_max_unit_bin : np_max (map C.abs [mkC 1 0]) = Ok 1.
Proof. cbn [map np_max fold_left]. now rewrite abs_one. Qed.

Lemma specInv_bounded_by_water_level_witness :
  C.abs (mkC 1 0) <= 1 / (1 * Rpower 10.0 (- (20) / 20.0)).
Proof.
  apply (specInv_bounded_by_water_level [mkC 1 0] 20 1 0%nat (mkC 1 0)).
  - exact np_max_unit_bin.
  - now rewrite specInv_unit_bin.
  - intros H. inversion H. lra.
Defined.

(** C2 as written fails: for the spectrum [1+0j] and a water level of
    20 dB the only output bin is [1+0j], of magnitude 1, below
    1 / (1 * 10^(-1)) = 10. *)
Lemma specInv_lower_bound_fails :
  ~ (forall (spec : list complex) (wlev m : R) (i : nat) (z : complex),
       np_max (map C.abs spec) = Ok m ->
       nth_error (fst (specInv spec wlev)) i = Some z ->
       z <> mkC 0 0 ->
       C.abs z >= 1 / (m * Rpower 10.0 (- wlev / 20.0))).
Proof.
  intros H.
  specialize (H [mkC 1 0] 20 1 0%nat (mkC 1 0) np_max_unit_bin).
  rewrite specInv_unit_bin in H.
  assert (Hnz : mkC 1 0 <> mkC 0 0) by (intros E; inversion E; lra).
  specialize (H eq_refl Hnz).
  rewrite abs_one, Rpower_10_minus_1 in H.
  assert (1 / (1 * / 10) = 10) by (field; lra). lra.
Qed.

End SpecInv.

(** ** Magnitude estimation *)

Section Magnitude.
Local Open Scope R_scope.

Lemma py_fdiv_ok (a b : R) : b <> 0 -> py_fdiv a b = Ok (a / b).
Proof.
  intros Hb. unfold py_fdiv. destruct (Req_dec_T b 0); [contradiction | reflexivity].
Qed.

Lemma py_fdiv_zero (a : R) : py_fdiv a 0 = Raise ZeroDivisionError.
Proof.
  unfold py_fdiv. destruct (Req_dec_T 0 0); [reflexivity | contradiction].
Qed.

Lemma pydiv_ok (a b : complex) : re b <> 0 -> C.pydiv a b = Ok (C.div a b).
Proof.
  intros Hb. unfold C.pydiv. destruct (C.eq_dec b C.zero) as [E | E].
  - subst b. now simpl in Hb.
  - reflexivity.
Qed.

Lemma zip3_nil {A B D : Type} (la : list A) (lb : list B) (ld : list D) :
  la = [] \/ lb = [] \/ ld = [] -> zip3 la lb ld = [].
Proof.
  intros [-> | [-> | ->]]; [reflexivity | now destruct la |].
  destruct la; [reflexivity |]. now destruct lb.
Qed.

Lemma zip3_firstn {A B D : Type} (la : list A) (lb : list B) (ld : list D) :
  let k := Nat.min (length la) (Nat.min (length lb) (length ld)) in
  zip3 (firstn k la) (firstn k lb) (firstn k ld) = zip3 la lb ld.
Proof.
  revert lb ld. induction la as [| a la IH]; intros lb ld; [reflexivity |].
  destruct lb as [| b lb]; [reflexivity |].
  destruct ld as [| d ld]; [reflexivity |].
  cbn -[Nat.min] in *. cbn. now rewrite IH.
Qed.


(** C3, as the code has it: with list inputs [estimateMagnitude] raises
    (a division by the zero count, before any amplitude is computed)
    as soon as one of the three lists is empty; lists of different
    lengths are not refused, the readings are paired up to the length
    of the shortest list. *)
Theorem estimateMagnitude_lists
    (paz : list (gmap string pyval)) (amplitude timespan : list R)
    (h_dist : R) :
  (paz = [] \/ amplitude = [] \/ timespan = [] ->
   estimateMagnitude (Many paz) (Many amplitude) (Many timespan) h_dist
   = Raise ZeroDivisionError)
  /\ (let k := Nat.min (length paz)
                      (Nat.min (length amplitude) (length timespan)) in
      estimateMagnitude (Many paz) (Many amplitude) (Many timespan) h_dist
      = estimateMagnitude (Many (firstn k paz)) (Many (firstn k amplitude))
                          (Many (firstn k timespan)) h_dist).
Proof.
  split.
  - intros H. unfold estimateMagnitude. cbn [to_list].
    rewrite (zip3_nil _ _ _ H). cbn. now rewrite py_fdiv_zero.
  - intros k. unfold estimateMagnitude. cbn [to_list].
    subst k. now rewrite zip3_firstn.
Qed.

Lemma estimateMagnitude_lists_witness :
  estimateMagnitude (Many [WOODANDERSON]) (Many []) (Many [1]) 100
  = Raise ZeroDivisionError.
Proof.
  apply (proj1 (estimateMagnitude_lists [WOODANDERSON] [] [1] 100)).
  right. left. reflexivity.
Defined.

(** The Wood-Anderson response amplitude is defined at every
    frequency: both poles have a non-zero real part. *)
Lemma WOODANDERSON_amplitude_defined (freq : R) :
  exists v : R, paz2AmpValueOfFreqResp WOODANDERSON freq = Ok v.
Proof.
  unfold paz2AmpValueOfFreqResp.
  change (getitem WOODANDERSON "zeros")
    with (Ok (VComplexList [C.add (C.of_R 0) (C.imag 0)])).
  change (getitem WOODANDERSON "poles")
    with (Ok (VComplexList [C.add (C.of_R (-6.283)) (C.imag 4.7124);
                            C.of_R (-6.283 - 4.7124)])).
  change (getitem WOODANDERSON "gain") with (Ok (VFloat 1.0)).
  cbn [mbind result_bind rbind as_complex_list as_float fold_left foldM].
  rewrite pydiv_ok by (cbn; lra).
  cbn [mbind result_bind rbind].
  rewrite pydiv_ok by (cbn; lra).
  cbn [mbind result_bind rbind]. eexists. reflexivity.
Qed.

Lemma flat_paz_amplitude (freq : R) :
  paz2AmpValueOfFreqResp flat_paz freq = Ok (C.abs (mkC 1 0) * 1.0).
Proof. reflexivity. Qed.

Lemma estimateWoodAndersonAmplitude_flat :
  exists v : R, estimateWoodAndersonAmplitude flat_paz 2 1 = Ok v.
Proof.
  unfold estimateWoodAndersonAmplitude.
  rewrite py_fdiv_ok by lra. cbn [mbind result_bind rbind].
  rewrite flat_paz_amplitude. cbn [mbind result_bind rbind].
  change (getitem flat_paz "sensitivity") with (Ok (VFloat 1.0)).
  cbn [mbind result_bind rbind as_float].
  rewrite abs_one. rewrite py_fdiv_ok by lra.
  cbn [mbind result_bind rbind].
  destruct (WOODANDERSON_amplitude_defined (1.0 / (2 * 1))) as [v ->].
  cbn [mbind result_bind rbind].
  change (getitem WOODANDERSON "sensitivity") with (Ok (VFloat 2080)).
  cbn [mbind result_bind rbind as_float]. eexists. reflexivity.
Qed.

(** C3 as written fails: two instruments, one amplitude and one time
    span are accepted, and a magnitude is returned. *)
Lemma estimateMagnitude_accepts_mismatch :
  length [flat_paz; flat_paz] <> length [2]
  /\ exists m : R,
       estimateMagnitude (Many [flat_paz; flat_paz]) (Many [2]) (Many [1])
                         100
       = Ok m.
Proof.
  split; [discriminate |].
  unfold estimateMagnitude. cbn [to_list zip3 foldM].
  destruct estimateWoodAndersonAmplitude_flat as [v ->].
  cbn [mbind result_bind rbind].
  change (0 + 1)%Z with 1%Z.
  rewrite py_fdiv_ok by lra.
  cbn [mbind result_bind rbind]. eexists. reflexivity.
Qed.
End Magnitude.

(** ** Frequency response of poles and zeros *)

Section FreqResp.
Local Open Scope R_scope.

Lemma complex_ext (a b : complex) : re a = re b -> im a = im b -> a = b.
Proof. destruct a, b; simpl; intros -> ->; reflexivity. Qed.

Ltac cring :=
  apply complex_ext;
  unfold C.add, C.sub, C.mul, C.scale, C.zero, C.one, C.conj;
  cbn [re im]; ring.

(** Horner's scheme on a convolution with [x - r]: with [y] the value
    accumulated so far, [yp] the one before and [c] the last coefficient
    read. *)
Lemma horner_conv_linear (a : list complex) (r x c y yp : complex) :
  y = C.add (C.mul yp x) c ->
  fold_left (fun y c => C.add (C.mul y x) c) (conv_linear_from c a r)
            (C.sub y (C.mul r yp))
  = C.mul (fold_left (fun y c => C.add (C.mul y x) c) a y) (C.sub x r).
Proof.
  revert c y yp. induction a as [| c' a IH]; intros c y yp Hy.
  - cbn [conv_linear_from fold_left]. subst y. cring.
  - cbn [conv_linear_from fold_left].
    rewrite <- (IH c' (C.add (C.mul y x) c') y eq_refl).
    f_equal. subst y. cring.
Qed.

Lemma polyval_conv_linear (a : list complex) (r x : complex) :
  polyval (conv_linear a r) x = C.mul (polyval a x) (C.sub x r).
Proof.
  unfold polyval, conv_linear.
  rewrite <- (horner_conv_linear a r x C.zero C.zero C.zero) by cring.
  f_equal. cring.
Qed.

Lemma polyval_fold_conv (roots a : list complex) (x : complex) :
  polyval (fold_left conv_linear roots a) x
  = C.mul (polyval a x) (Cprod (map (C.sub x) roots)).
Proof.
  revert a. induction roots as [| r roots IH]; intros a.
  - cbn [fold_left map Cprod fold_right]. cring.
  - cbn [fold_left map Cprod fold_right].
    rewrite IH, polyval_conv_linear. fold (Cprod (map (C.sub x) roots)).
    cring.
Qed.

Lemma polyval_poly (roots : list complex) (x : complex) :
  polyval (poly roots) x = Cprod (map (C.sub x) roots).
Proof.
  unfold poly. rewrite polyval_fold_conv.
  unfold polyval. cbn [fold_left]. cring.
Qed.

Lemma horner_scale (k : R) (p : list complex) (x y : complex) :
  fold_left (fun y c => C.add (C.mul y x) c) (map (C.scale k) p)
            (C.scale k y)
  = C.scale k (fold_left (fun y c => C.add (C.mul y x) c) p y).
Proof.
  revert y. induction p as [| c p IH]; intros y; [reflexivity |].
  cbn [map fold_left]. rewrite <- IH. f_equal. cring.
Qed.

Lemma polyval_scale (k : R) (p : list complex) (x : complex) :
  polyval (map (C.scale k) p) x = C.scale k (polyval p x).
Proof.
  unfold polyval. rewrite <- horner_scale. f_equal. cring.
Qed.

Lemma linspace_nyquist (t_samp : R) (nfft : Z) :
  (0 <= nfft)%Z ->
  linspace 0 (1 / (t_samp * 2.0)) (nfft / 2 + 1) = nyquist_grid t_samp nfft.
Proof.
  intros Hn. unfold linspace, nyquist_grid.
  assert (0 <= nfft / 2)%Z by (apply Z.div_pos; lia).
  destruct (Z.leb_spec (nfft / 2 + 1) 0) as [Hle | _]; [lia |].
  destruct (Z.eqb_spec (nfft / 2 + 1) 1) as [E | _].
  - rewrite E. change (Z.to_nat 1) with 1%nat. cbn [seq map].
    f_equal. cbn [INR]. unfold Rdiv. ring.
  - replace (nfft / 2 + 1 - 1)%Z with (nfft / 2)%Z by lia.
    apply map_ext. intros i.
    replace 2.0 with 2 by lra. unfold Rdiv. ring.
Qed.

(** C7: with the default convention [pazToFreqResp] returns the complex
    conjugate of the analog response H(j 2 pi f) of the transfer
    function built from zeros, poles and gain, at the [nfft/2 + 1]
    frequencies of the grid from 0 to the Nyquist frequency.  Nothing
    depends on [nfft] being even; the sample interval must not be
    zero. *)
Theorem pazToFreqResp_conj_analog
    (poles zeros : list complex) (scale_fac t_samp : R) (nfft : Z)
    (freq : bool) :
  t_samp <> 0 -> (0 <= nfft)%Z ->
  let f := nyquist_grid t_samp nfft in
  let h := map (fun x => C.conj (analog_response zeros poles scale_fac
                                   (C.imag (2 * PI * x)))) f in
  pazToFreqResp poles zeros scale_fac t_samp nfft freq true
  = Ok (if freq then RespFreq h f else Resp h)
  /\ length f = Z.to_nat (nfft / 2 + 1).
Proof.
  intros Ht Hn f h. split.
  - unfold pazToFreqResp, zpk2tf, freqs.
    rewrite py_fdiv_ok by lra. cbn [mbind result_bind rbind].
    rewrite linspace_nyquist by exact Hn. fold f.
    assert (E : map C.conj
                  (map (fun w => C.div (polyval (map (C.scale scale_fac)
                                                     (poly zeros)) (C.imag w))
                                       (polyval (poly poles) (C.imag w)))
                       (map (fun x => x * 2 * PI) f)) = h).
    { subst h. rewrite !map_map. apply map_ext. intros x.
      rewrite polyval_scale, !polyval_poly.
      replace (x * 2 * PI) with (2 * PI * x) by ring. reflexivity. }
    rewrite E. now destruct freq.
  - subst f. unfold nyquist_grid. now rewrite length_map, length_seq.
Qed.

Lemma pazToFreqResp_conj_analog_witness :
  pazToFreqResp [] [] 1 1 2 false true
  = Ok (Resp (map (fun x => C.conj (analog_response [] [] 1
                                      (C.imag (2 * PI * x))))
                  (nyquist_grid 1 2))).
Proof.
  apply (pazToFreqResp_conj_analog [] [] 1 1 2 false); [lra | lia].
Defined.
End FreqResp.

(** ** Temporary file of the RESP evaluation *)

Section EvalResp.
Variable evresp :
  string -> string -> string -> string -> Z * Z -> string -> string ->
  list R -> string -> gmap string (list string) -> option response.

(** C9: when the foreign call finds no response, [evalresp] raises and
    the temporary file it wrote is still there: the removal is only
    reached on the way out of a successful call. *)
Theorem evalresp_failure_keeps_temp_file
    (t_samp : R) (nfft : Z) (filename : string) (date : Z * Z)
    (station channel network locid units : string) (freq debug : bool)
    (w : world) (content : list string) :
  files w !! filename = Some content ->
  t_samp <> 0%R -> (nfft / 2 <> 0)%Z ->
  (forall a b c d e f g h i fs, evresp a b c d e f g h i fs = None) ->
  let tempfile := fresh (dom (files w)) in
  (tempfile ∉ dom (files w))
  /\ evalresp evresp t_samp nfft filename date station channel network
              locid units freq debug w
     = (Raise ValueError,
        mkWorld (heap w) (<[tempfile := content]> (<[tempfile := []]> (files w)))).
Proof.
  intros Hfile Ht Hn Hnull tempfile. split.
  - apply is_fresh.
  - unfold evalresp.
    unfold mbind at 1, M_bind at 1. unfold read_file at 1. rewrite Hfile.
    unfold mbind at 1, M_bind at 1. unfold named_temporary_file at 1.
    cbn [heap files]. fold tempfile.
    unfold mbind at 1, M_bind at 1. unfold write_file at 1.
    cbn [heap files].
    unfold mbind at 1, M_bind at 1. unfold lift at 1.
    rewrite py_fdiv_ok by lra.
    unfold mbind at 1, M_bind at 1. unfold lift at 1.
    rewrite py_fdiv_ok by (apply not_0_IZR; exact Hn).
    unfold mbind at 1, M_bind at 1. unfold call_evresp at 1.
    now rewrite Hnull.
Qed.

(** On the way out of a successful call the temporary file is removed:
    the files are what they were before the call. *)
Lemma evalresp_success_removes_temp_file
    (t_samp : R) (nfft : Z) (filename : string) (date : Z * Z)
    (station channel network locid units : string) (freq debug : bool)
    (w : world) (content : list string) (res : response) :
  files w !! filename = Some content ->
  t_samp <> 0%R -> (nfft / 2 <> 0)%Z ->
  (forall a b c d e f g h i fs, evresp a b c d e f g h i fs = Some res) ->
  rvec res <> [] ->
  exists r : freq_resp,
    evalresp evresp t_samp nfft filename date station channel network locid
             units freq debug w
    = (Ok r, mkWorld (heap w) (files w)).
Proof.
  intros Hfile Ht Hn Hres Hvec.
  assert (Hfresh : fresh (dom (files w)) ∉ dom (files w)) by apply is_fresh.
  apply not_elem_of_dom in Hfresh.
  unfold evalresp.
  unfold mbind at 1, M_bind at 1. unfold read_file at 1. rewrite Hfile.
  unfold mbind at 1, M_bind at 1. unfold named_temporary_file at 1.
  cbn [heap files].
  unfold mbind at 1, M_bind at 1. unfold write_file at 1.
  cbn [heap files].
  unfold mbind at 1, M_bind at 1. unfold lift at 1.
  rewrite py_fdiv_ok by lra.
  unfold mbind at 1, M_bind at 1. unfold lift at 1.
  rewrite py_fdiv_ok by (apply not_0_IZR; exact Hn).
  unfold mbind at 1, M_bind at 1. unfold call_evresp at 1.
  rewrite Hres.
  unfold mbind at 1, M_bind at 1. unfold lift at 1, set_last_real.
  destruct (map C.conj (rvec res)) as [| z h] eqn:Hh.
  { destruct (rvec res); [contradiction | discriminate]. }
  unfold mbind at 1, M_bind at 1. unfold remove_quietly at 1.
  cbn [heap files].
  rewrite delete_insert_eq, delete_insert_eq, delete_id by exact Hfresh.
  destruct freq; eexists; reflexivity.
Qed.
End EvalResp.

Lemma evalresp_failure_keeps_temp_file_witness :
  let tempfile := fresh (dom (files resp_world)) in
  snd (evalresp evresp_null 1 4 "RESP.ANMO" (2010, 12) "*" "*" "*" "*" "VEL"
                true false resp_world)
  = mkWorld ∅ (<[tempfile := ["B050F03     Station:     ANMO"]]>
               (<[tempfile := []]> (files resp_world))).
Proof.
  intros tempfile.
  rewrite (proj2 (evalresp_failure_keeps_temp_file evresp_null 1 4 "RESP.ANMO"
             (2010, 12) "*" "*" "*" "*" "VEL" true false resp_world
             ["B050F03     Station:     ANMO"]
             ltac:(reflexivity) ltac:(lra) ltac:(discriminate)
             ltac:(reflexivity))).
  reflexivity.
Defined.

(** ** What the simulation engine leaves untouched *)

Section Frame.
Variable w0 : world.
Variable evresp :
  string -> string -> string -> string -> Z * Z -> string -> string ->
  list R -> string -> gmap string (list string) -> option response.

Lemma frame_refl : frame w0 w0.
Proof. split; reflexivity. Qed.

Lemma frame_dom_heap (w : world) (l : loc) :
  frame w0 w -> l ∈ dom (heap w0) -> l ∈ dom (heap w).
Proof.
  intros [Hh _] Hl. apply elem_of_dom. rewrite (Hh l Hl).
  now apply elem_of_dom.
Qed.

Lemma frame_dom_files (w : world) (p : string) :
  frame w0 w -> p ∈ dom (files w0) -> p ∈ dom (files w).
Proof.
  intros [_ Hf] Hp. apply elem_of_dom. rewrite (Hf p Hp).
  now apply elem_of_dom.
Qed.

Lemma respects_ret {A : Type} (a : A) (Φ : A -> Prop) :
  Φ a -> respects w0 (mret a) Φ.
Proof.
  intros Ha w Hw. split; [exact Hw |]. cbn. now intros ? [= <-].
Qed.

Lemma respects_lift {A : Type} (r : result A) :
  respects w0 (lift r) any.
Proof. intros w Hw. split; [exact Hw | now intros]. Qed.

Lemma respects_raise {A : Type} (e : exn) (Φ : A -> Prop) :
  respects w0 (raise e) Φ.
Proof. intros w Hw. split; [exact Hw | discriminate]. Qed.

Lemma respects_weaken {A : Type} (m : M A) (Φ Ψ : A -> Prop) :
  respects w0 m Φ -> (forall a, Φ a -> Ψ a) -> respects w0 m Ψ.
Proof.
  intros Hm HΦ w Hw. destruct (Hm w Hw) as [H1 H2].
  split; [exact H1 |]. intros a Ha. apply HΦ, H2, Ha.
Qed.


Lemma respects_bind {A B : Type} (m : M A) (k : A -> M B)
    (Φ : A -> Prop) (Ψ : B -> Prop) :
  respects w0 m Φ -> (forall a, Φ a -> respects w0 (k a) Ψ) ->
  respects w0 (m ≫= k) Ψ.
Proof.
  intros Hm Hk w Hw. unfold mbind, M_bind.
  destruct (Hm w Hw) as [H1 H2].
  destruct (m w) as [[a | e] w1]; cbn [fst snd] in *.
  - apply (Hk a (H2 a eq_refl) w1 H1).
  - split; [exact H1 | discriminate].
Qed.

Lemma respects_alloc (o : obj) : respects w0 (alloc o) (local_loc w0).
Proof.
  intros w Hw. unfold alloc. cbn [fst snd].
  assert (Hfresh : fresh (dom (heap w)) ∉ dom (heap w)) by apply is_fresh.
  split.
  - split; cbn [heap files]; [| apply Hw].
    intros l Hl. rewrite lookup_insert_ne; [now apply Hw |].
    intros <-. apply Hfresh. now apply frame_dom_heap.
  - intros a [= <-] Hl. apply Hfresh. now apply frame_dom_heap.
Qed.

Lemma respects_deref (l : loc) : respects w0 (deref l) any.
Proof.
  intros w Hw. unfold deref.
  destruct (heap w !! l); (split; [exact Hw | now intros]).
Qed.

Lemma respects_store (l : loc) (o : obj) :
  local_loc w0 l -> respects w0 (store l o) any.
Proof.
  intros Hl w Hw. unfold store. cbn [fst snd]. split; [| now intros].
  split; cbn [heap files]; [| apply Hw].
  intros l' Hl'. rewrite lookup_insert_ne; [now apply Hw |].
  intros <-. now apply Hl.
Qed.

Lemma respects_load_real (l : loc) : respects w0 (load_real l) any.
Proof.
  unfold load_real. eapply respects_bind; [apply respects_deref |].
  intros [a | a | d] _; first [now apply respects_ret | apply respects_raise].
Qed.

Lemma respects_load_complex (l : loc) : respects w0 (load_complex l) any.
Proof.
  unfold load_complex. eapply respects_bind; [apply respects_deref |].
  intros [a | a | d] _; first [now apply respects_ret | apply respects_raise].
Qed.

Lemma respects_load_dict (l : loc) : respects w0 (load_dict l) any.
Proof.
  unfold load_dict. eapply respects_bind; [apply respects_deref |].
  intros [a | a | d] _; first [now apply respects_ret | apply respects_raise].
Qed.

Lemma respects_truth (x : option loc) : respects w0 (truth x) any.
Proof.
  destruct x as [l |]; cbn [truth]; [| now apply respects_ret].
  eapply respects_bind; [apply respects_deref |].
  intros o _. apply respects_lift.
Qed.

Lemma respects_read_file (name : string) : respects w0 (read_file name) any.
Proof.
  intros w Hw. unfold read_file.
  destruct (files w !! name); (split; [exact Hw | now intros]).
Qed.

Lemma respects_named_temporary_file :
  respects w0 named_temporary_file (local_file w0).
Proof.
  intros w Hw. unfold named_temporary_file. cbn [fst snd].
  assert (Hfresh : fresh (dom (files w)) ∉ dom (files w)) by apply is_fresh.
  split.
  - split; cbn [heap files]; [apply Hw |].
    intros p Hp. rewrite lookup_insert_ne; [now apply Hw |].
    intros <-. apply Hfresh. now apply frame_dom_files.
  - intros a [= <-] Hp. apply Hfresh. now apply frame_dom_files.
Qed.

Lemma respects_write_file (name : string) (content : list string) :
  local_file w0 name -> respects w0 (write_file name content) any.
Proof.
  intros Hn w Hw. unfold write_file. cbn [fst snd]. split; [| now intros].
  split; cbn [heap files]; [apply Hw |].
  intros p Hp. rewrite lookup_insert_ne; [now apply Hw |].
  intros <-. now apply Hn.
Qed.

Lemma respects_remove_quietly (name : string) :
  local_file w0 name -> respects w0 (remove_quietly name) any.
Proof.
  intros Hn w Hw. unfold remove_quietly. cbn [fst snd]. split; [| now intros].
  split; cbn [heap files]; [apply Hw |].
  intros p Hp. rewrite lookup_delete_ne; [now apply Hw |].
  intros <-. now apply Hn.
Qed.

Lemma respects_call_evresp (sta cha net locid : string) (datime : Z * Z)
    (unts fn : string) (freqs : list R) (vbs : string) :
  respects w0 (call_evresp evresp sta cha net locid datime unts fn freqs vbs)
           any.
Proof.
  intros w Hw. unfold call_evresp.
  destruct (evresp _ _ _ _ _ _ _ _ _ _); (split; [exact Hw | now intros]).
Qed.

Ltac leaf :=
  first
    [ apply respects_lift
    | apply respects_raise
    | apply respects_alloc
    | apply respects_deref
    | apply respects_load_real
    | apply respects_load_complex
    | apply respects_load_dict
    | apply respects_truth
    | apply respects_read_file
    | apply respects_named_temporary_file
    | apply respects_call_evresp
    | apply respects_store; assumption
    | apply respects_write_file; assumption
    | apply respects_remove_quietly; assumption
    | apply respects_ret; exact I ].

Ltac steps :=
  repeat (eapply respects_bind; [solve [leaf] | intros ? ?]).

Lemma respects_evalresp (t_samp : R) (nfft : Z) (filename : string)
    (date : Z * Z) (station channel network locid units : string)
    (freq debug : bool) :
  respects w0 (evalresp evresp t_samp nfft filename date station channel
                        network locid units freq debug) any.
Proof.
  unfold evalresp. steps. destruct freq; leaf.
Qed.

Lemma respects_check_paz (d : option loc) : respects w0 (check_paz d) any.
Proof.
  destruct d as [l |]; cbn [check_paz]; [| leaf].
  steps. destruct a; leaf.
Qed.

Lemma respects_paz_item {A : Type} (d : option loc) (key : string)
    (as_a : pyval -> result A) :
  respects w0 (paz_item d key as_a) any.
Proof.
  destruct d as [l |]; cbn [paz_item]; [| leaf]. steps. leaf.
Qed.

Lemma respects_nothing_given (a b c : option loc) :
  respects w0 (nothing_given a b c) any.
Proof.
  unfold nothing_given. steps. destruct a0; [leaf |].
  steps. destruct a0; [leaf |]. steps. leaf.
Qed.

Lemma respects_alloc_resp (r : freq_resp) :
  respects w0 (alloc_resp r) (fun fr => local_loc w0 (fst fr)).
Proof.
  destruct r as [h | h f]; cbn [alloc_resp]; [leaf |].
  eapply respects_bind; [apply respects_alloc | intros l Hl].
  now apply respects_ret.
Qed.

Ltac leaf' :=
  first
    [ leaf
    | apply respects_evalresp
    | apply respects_check_paz
    | apply respects_paz_item
    | apply respects_nothing_given ].

Ltac steps' :=
  repeat (eapply respects_bind; [solve [leaf'] | intros ? ?]).

Ltac block := eapply (respects_bind _ _ any); [| intros _ _].

Lemma respects_seisSim (data : loc) (samp_rate : R)
    (paz_remove paz_simulate : option loc)
    (remove_sensitivity simulate_sensitivity : bool) (water_level : R)
    (zero_mean taper : bool) (taper_fraction : Q)
    (pre_filt : option (R * R * R * R)) (seedresp : option loc)
    (nfft_pow2 : bool) :
  respects w0
    (seisSim evresp data samp_rate paz_remove paz_simulate
             remove_sensitivity simulate_sensitivity water_level zero_mean
             taper taper_fraction pre_filt seedresp nfft_pow2)
    (local_loc w0).
Proof.
  unfold seisSim.
  eapply respects_bind; [apply respects_nothing_given | intros none _].
  destruct none; [apply respects_raise |].
  eapply respects_bind; [apply respects_check_paz | intros _ _].
  eapply respects_bind; [apply respects_check_paz | intros _ _].
  eapply respects_bind; [apply respects_lift | intros delta _].
  eapply respects_bind; [apply respects_load_real | intros a _].
  (* the working copy of the trace *)
  eapply respects_bind; [apply respects_alloc | intros data1 Hdata1].
  block. { destruct zero_mean; [steps'; leaf | leaf]. }
  block. { destruct taper; [steps'; leaf | leaf]. }
  eapply (respects_bind _ _ any); [| intros nfft _].
  { destruct nfft_pow2; [leaf |]. destruct (Z.odd _); leaf. }
  eapply respects_bind; [apply respects_load_real | intros a' _].
  eapply respects_bind; [apply respects_lift | intros spec _].
  (* the spectrum *)
  eapply respects_bind; [apply respects_alloc | intros data2 Hdata2].
  eapply respects_bind; [apply respects_truth | intros rm _].
  (* the response to remove is a new array *)
  eapply (respects_bind _ _ (local_resp w0)); [| intros fr Hfr].
  { destruct rm; [| now apply respects_ret]. steps'.
    eapply respects_bind; [apply respects_alloc_resp | intros p Hp].
    apply respects_ret. destruct p; exact Hp. }
  eapply respects_bind; [apply respects_truth | intros sr _].
  eapply (respects_bind _ _ (local_resp w0)); [| intros fr' Hfr'].
  { destruct sr; [| now apply respects_ret]. steps'.
    eapply respects_bind; [apply respects_alloc_resp | intros p Hp].
    apply respects_ret. destruct p; exact Hp. }
  eapply respects_bind; [apply respects_truth | intros rm' _].
  eapply (respects_bind _ _ any); [| intros go _].
  { destruct rm'; leaf. }
  (* deconvolution: the inversion writes into the new array *)
  block.
  { destruct go; [| leaf].
    destruct fr' as [[freq_response freqs] |]; [| leaf].
    cbn [local_resp] in Hfr'.
    block. { destruct pre_filt; [steps'; leaf | leaf]. }
    eapply respects_bind; [apply respects_load_complex | intros sp _].
    destruct (specInv sp water_level) as [sp' found].
    steps'. leaf. }
  eapply respects_bind; [apply respects_truth | intros ps _].
  block. { destruct ps; [steps'; leaf | leaf]. }
  eapply respects_bind; [apply respects_load_complex | intros d _].
  eapply respects_bind; [apply respects_lift | intros x _].
  (* the trace that is returned *)
  eapply respects_bind; [apply respects_alloc | intros data3 Hdata3].
  eapply respects_bind; [apply respects_load_real | intros a3 _].
  eapply respects_bind; [apply respects_lift | intros a4 _].
  eapply respects_bind; [apply respects_store, Hdata3 | intros _ _].
  eapply respects_bind; [apply respects_truth | intros rm3 _].
  block. { destruct (rm3 && remove_sensitivity); [steps'; leaf | leaf]. }
  eapply respects_bind; [apply respects_truth | intros ps3 _].
  block. { destruct (ps3 && simulate_sensitivity); [steps'; leaf | leaf]. }
  apply respects_ret, Hdata3.
Qed.
End Frame.

Section SimExample.
Lemma bind_ok {A B : Type} (m : M A) (k : A -> M B) (w w1 : world) (a : A) :
  m w = (Ok a, w1) -> (m ≫= k) w = k a w1.
Proof. intros H. unfold mbind, M_bind. now rewrite H. Qed.

Lemma lift_fdiv_ok (a b : R) (w : world) :
  b <> 0%R -> lift (py_fdiv a b) w = (Ok (a / b)%R, w).
Proof. intros Hb. unfold lift. now rewrite py_fdiv_ok. Qed.

Lemma bind_assoc {A B D : Type} (m : M A) (k1 : A -> M B) (k2 : B -> M D)
    (w : world) :
  ((m ≫= k1) ≫= k2) w = (m ≫= (fun a => k1 a ≫= k2)) w.
Proof.
  unfold mbind, M_bind. destruct (m w) as [[a | e] w1]; reflexivity.
Qed.

Lemma lift_pazToFreqResp_ok (poles zeros : list complex)
    (scale_fac t_samp : R) (nfft : Z) (freq pitsa : bool) (w : world) :
  t_samp <> 0%R ->
  lift (pazToFreqResp poles zeros scale_fac t_samp nfft freq pitsa) w
  = (Ok (let f := linspace 0 (1 / (t_samp * 2.0)) (nfft / 2 + 1) in
         let h := map (fun w => C.div (polyval (map (C.scale scale_fac)
                                                    (poly zeros))
                                               (C.imag w))
                                      (polyval (poly poles) (C.imag w)))
                      (map (fun x => (x * 2 * PI)%R) f) in
         let h := if pitsa then map C.conj h else h in
         if freq then RespFreq h f else Resp h), w).
Proof.
  intros Ht. unfold lift, pazToFreqResp, zpk2tf, freqs.
  rewrite py_fdiv_ok by lra. cbn [mbind result_bind rbind].
  now destruct freq.
Qed.

Ltac run := first [erewrite bind_ok by reflexivity | rewrite bind_assoc].

Lemma sim_example_runs :
  is_ok (fst (seisSim evresp_null 0%nat 1 (Some 1%nat) None true true 600
                      true true (1 # 20) None None false sim_world))
  = true.
Proof.
  unfold seisSim.
  erewrite bind_ok; [| reflexivity].
  cbv iota beta.
  erewrite bind_ok; [| reflexivity].
  erewrite bind_ok; [| reflexivity].
  erewrite bind_ok; [| apply lift_fdiv_ok; lra].
  repeat run.
  change (negb (bool_decide (dom flat_paz = ∅))) with true. cbv iota.
  repeat run.
  erewrite bind_ok; [| apply lift_pazToFreqResp_ok; lra].
  repeat run.
  reflexivity.
Qed.

(** C8 as written fails: in a run that removes the response [flat_paz]
    and succeeds, the dictionary passed in at location 1 is the same
    after the call; the inversion has worked on an array that the call
    made itself. *)
Lemma seisSim_keeps_paz_remove :
  let run := seisSim evresp_null 0%nat 1 (Some 1%nat) None true true 600
                     true true (1 # 20) None None false sim_world in
  is_ok (fst run) = true
  /\ heap sim_world !! 1%nat = Some (Dict flat_paz)
  /\ heap (snd run) !! 1%nat = Some (Dict flat_paz).
Proof.
  intros run. split; [exact sim_example_runs |].
  split; [reflexivity |].
  destruct (respects_seisSim sim_world evresp_null 0%nat 1 (Some 1%nat) None
              true true 600 true true (1 # 20) None None false sim_world
              (frame_refl sim_world)) as [[Hheap _] _].
  fold run in Hheap. rewrite Hheap; [reflexivity |].
  apply elem_of_dom. eexists. reflexivity.
Qed.

(** C8, as the code has it: a call of [seisSim] leaves every object the
    caller owns as it was, the data array and the response dictionaries
    alike, and every file that existed; a trace that is returned is a
    new array. *)
Theorem seisSim_leaves_caller_state
    (evresp : string -> string -> string -> string -> Z * Z -> string ->
              string -> list R -> string -> gmap string (list string) ->
              option response)
    (data : loc) (samp_rate : R) (paz_remove paz_simulate : option loc)
    (remove_sensitivity simulate_sensitivity : bool) (water_level : R)
    (zero_mean taper : bool) (taper_fraction : Q)
    (pre_filt : option (R * R * R * R)) (seedresp : option loc)
    (nfft_pow2 : bool) (w : world) :
  let run := seisSim evresp data samp_rate paz_remove paz_simulate
                     remove_sensitivity simulate_sensitivity water_level
                     zero_mean taper taper_fraction pre_filt seedresp
                     nfft_pow2 w in
  (forall l : loc, l ∈ dom (heap w) -> heap (snd run) !! l = heap w !! l)
  /\ (forall p : string,
        p ∈ dom (files w) -> files (snd run) !! p = files w !! p)
  /\ (forall out : loc, fst run = Ok out -> out ∉ dom (heap w)).
Proof.
  intros run.
  destruct (respects_seisSim w evresp data samp_rate paz_remove paz_simulate
              remove_sensitivity simulate_sensitivity water_level zero_mean
              taper taper_fraction pre_filt seedresp nfft_pow2 w
              (frame_refl w)) as [[Hheap Hfiles] Hout].
  repeat split; assumption.
Qed.

Lemma seisSim_leaves_caller_state_witness :
  heap (snd (seisSim evresp_null 0%nat 1 (Some 1%nat) None true true 600
                     true true (1 # 20) None None false sim_world))
    !! 0%nat
  = Some (ArrR [1%R; 2%R]).
Proof.
  rewrite (proj1 (seisSim_leaves_caller_state evresp_null 0%nat 1
                    (Some 1%nat) None true true 600 true true (1 # 20) None
                    None false sim_world)).
  - reflexivity.
  - apply elem_of_dom. eexists. reflexivity.
Defined.
End SimExample.

(** * Further properties *)

(** ** More on the cosine taper *)

Section TaperMore.
Local Open Scope R_scope.

Lemma taper_frac_zero (npts : Z) : taper_frac npts 0 = 0%Z.
Proof.
  unfold taper_frac, py_int. cbn. rewrite Z.mul_0_r. reflexivity.
Qed.

(** With fraction 0 nothing is tapered: every sample of the window is 1. *)
Theorem cosTaper_zero_fraction (npts : Z) :
  (0 <= npts)%Z -> cosTaper npts 0 = Ok (repeat 1 (Z.to_nat npts)).
Proof.
  intros Hn. unfold cosTaper, np_ones. rewrite taper_frac_zero.
  replace (npts - 2 * 0)%Z with npts by lia.
  destruct (Z.ltb_spec npts 0) as [H | _]; [lia |].
  cbn. now rewrite app_nil_r.
Qed.

Lemma cosTaper_zero_fraction_witness :
  cosTaper 3 0 = Ok [1; 1; 1].
Proof. apply (cosTaper_zero_fraction 3). lia. Defined.



(** Between the two ramps every sample is exactly 1. *)
Theorem cosTaper_middle_ones (npts : Z) (p : Q) (w : list R) (i : Z) :
  cosTaper npts p = Ok w ->
  (0 <= taper_frac npts p <= i)%Z -> (i < npts - taper_frac npts p)%Z ->
  nth (Z.to_nat i) w 0 = 1.
Proof.
  intros Hw Hi1 Hi2. unfold cosTaper, np_ones in Hw.
  destruct (Z.ltb_spec (npts - 2 * taper_frac npts p) 0) as [H | H];
    [discriminate |].
  cbn in Hw. injection Hw as <-.
  rewrite app_nth2; rewrite length_map, linspace_length; [| lia].
  rewrite app_nth1; [| rewrite repeat_length; lia].
  apply nth_repeat_lt. lia.
Qed.

Lemma cosTaper_middle_ones_witness :
  exists w : list R, cosTaper 10 (1 # 10) = Ok w /\ nth 5 w 0 = 1.
Proof.
  destruct (cosTaper 10 (1 # 10)) as [w | e] eqn:E; [| discriminate E].
  exists w. split; [reflexivity |].
  apply (cosTaper_middle_ones 10 (1 # 10) w 5 E); vm_compute; intuition discriminate.
Defined.

End TaperMore.

(** ** Detrending *)

Section Detrend.
Local Open Scope R_scope.



(** [detrend] keeps the number of samples, and it raises ([IndexError])
    exactly on the empty trace. *)
Theorem detrend_length (trace : list R) :
  length (fst (detrend trace)) = length trace
  /\ (snd (detrend trace) = Raise IndexError <-> trace = []).
Proof.
  destruct trace as [| x1 t]; [now split |].
  unfold detrend. cbn [fst snd]. split.
  - rewrite length_map, length_combine, length_seq. lia.
  - split; discriminate.
Qed.







End Detrend.

(** ** Corner frequency and damping *)

Section CornFreq.
Local Open Scope R_scope.

Lemma py_sqrt_ok (x : R) : 0 <= x -> py_sqrt x = Ok (sqrt x).
Proof.
  intros Hx. unfold py_sqrt. destruct (Rlt_dec x 0); [lra | reflexivity].
Qed.

Lemma py_sqrt_raises (x : R) : x < 0 -> py_sqrt x = Raise ValueError.
Proof.
  intros Hx. unfold py_sqrt. destruct (Rlt_dec x 0); [reflexivity | lra].
Qed.

(** For a damping of at most 1 in absolute value and a corner frequency
    that is not negative, [cornFreq2Paz] yields two poles that are complex
    conjugates, of real part [- damp * 2 pi fc] and of magnitude
    [2 pi fc], with two zeros at the origin. *)
Theorem cornFreq2Paz_poles (fc damp : R) :
  0 <= fc -> damp * damp <= 1 ->
  exists (paz : gmap string pyval) (p1 p2 : complex),
    cornFreq2Paz fc damp = Ok paz
    /\ getitem paz "poles" = Ok (VComplexList [p1; p2])
    /\ getitem paz "zeros" = Ok (VComplexList [mkC 0 0; mkC 0 0])
    /\ p2 = C.conj p1
    /\ re p1 = - damp * 2 * PI * fc
    /\ C.abs p1 = 2 * PI * fc.
Proof.
  intros Hfc Hd. unfold cornFreq2Paz.
  rewrite py_sqrt_ok by lra. cbn [mbind result_bind rbind app].
  set (s := sqrt (1 - damp * damp)).
  assert (Hs : s * s = 1 - damp * damp) by (apply sqrt_sqrt; lra).
  eexists. eexists. eexists. split; [reflexivity |].
  split; [unfold getitem; rewrite lookup_insert_eq; reflexivity |].
  split; [reflexivity |].
  split.
  { unfold C.conj, C.scale, C.add, C.sub, C.of_R, C.imag, Cneg; cbn [re im].
    f_equal; ring. }
  split.
  { unfold C.scale, C.add, C.of_R, C.imag, Cneg; cbn [re im]. ring. }
  pose proof PI_RGT_0 as Hpi.
  unfold C.abs. apply sqrt_lem_1.
  - apply norm2_nonneg.
  - nra.
  - unfold C.norm2, C.scale, C.add, C.of_R, C.imag, Cneg; cbn [re im].
    replace (2 * PI * fc * (2 * PI * fc))
      with ((damp * damp + s * s) * (2 * PI * fc * (2 * PI * fc)))
      by (rewrite Hs; ring).
    ring.
Qed.

Lemma cornFreq2Paz_poles_witness :
  exists (paz : gmap string pyval) (p1 p2 : complex),
    cornFreq2Paz 1 (1 / 2) = Ok paz
    /\ getitem paz "poles" = Ok (VComplexList [p1; p2])
    /\ getitem paz "zeros" = Ok (VComplexList [mkC 0 0; mkC 0 0])
    /\ p2 = C.conj p1
    /\ re p1 = - (1 / 2) * 2 * PI * 1
    /\ C.abs p1 = 2 * PI * 1.
Proof. apply (cornFreq2Paz_poles 1 (1 / 2)); lra. Defined.

(** A damping above 1 in absolute value is refused: the square root of
    a negative number raises [ValueError]. *)
Theorem cornFreq2Paz_overdamped (fc damp : R) :
  1 < damp * damp -> cornFreq2Paz fc damp = Raise ValueError.
Proof.
  intros Hd. unfold cornFreq2Paz. now rewrite py_sqrt_raises by lra.
Qed.

Lemma cornFreq2Paz_overdamped_witness :
  cornFreq2Paz 1 2 = Raise ValueError.
Proof. apply (cornFreq2Paz_overdamped 1 2). lra. Defined.
End CornFreq.

(** ** The pre-filter window *)

Section PreFilter.
Local Open Scope R_scope.

Lemma Rltb_spec (a b : R) : reflect (a < b) (Rltb a b).
Proof.
  unfold Rltb. destruct (Rlt_dec a b); constructor; assumption.
Qed.

(** Whatever the four corners, the window of the pre-filter lies between
    0 and 1 and is exactly 1 from the second to the third corner; for
    corners in increasing order it is 0 below the first and above the
    fourth. *)
Theorem cos_win_shape (fl1 fl2 fl3 fl4 : R) (freqs : list R) (i : nat)
    (f : R) :
  nth_error freqs i = Some f ->
  exists w : R,
    nth_error (cos_win (fl1, fl2, fl3, fl4) freqs) i = Some w
    /\ 0 <= w <= 1
    /\ (fl2 <= f <= fl3 -> w = 1)
    /\ (fl1 <= fl2 <= fl3 -> fl3 <= fl4 -> f < fl1 \/ fl4 < f -> w = 0).
Proof.
  intros Hf. unfold cos_win. rewrite nth_error_map, Hf. cbn [option_map].
  eexists. split; [reflexivity |].
  pose proof (COS_bound (PI * (fl1 - f) / (fl2 - fl1))) as [? ?].
  pose proof (COS_bound (PI * (fl3 - f) / (fl4 - fl3))) as [? ?].
  destruct (Rltb_spec f fl1), (Rltb_spec f fl2), (Rltb_spec fl3 f),
    (Rltb_spec fl4 f); repeat split; intros; lra.
Qed.

Lemma cos_win_shape_witness :
  exists w : R,
    nth_error (cos_win (1, 2, 3, 4) [0; 2.5]) 1 = Some w
    /\ 0 <= w <= 1
    /\ (2 <= 2.5 <= 3 -> w = 1)
    /\ (1 <= 2 <= 3 -> 3 <= 4 -> 2.5 < 1 \/ 4 < 2.5 -> w = 0).
Proof. apply (cos_win_shape 1 2 3 4 [0; 2.5] 1 2.5). reflexivity. Defined.
End PreFilter.

(** ** Response amplitude at one frequency *)

Section Amplitude.
Local Open Scope R_scope.

Ltac cring :=
  apply complex_ext;
  unfold C.add, C.sub, C.mul, C.scale, C.zero, C.one, C.conj, C.div;
  cbn [re im]; ring.

Lemma norm2_mul (a b : complex) :
  C.norm2 (C.mul a b) = C.norm2 a * C.norm2 b.
Proof. unfold C.norm2, C.mul; cbn [re im]. ring. Qed.

Lemma abs_mul (a b : complex) : C.abs (C.mul a b) = C.abs a * C.abs b.
Proof.
  unfold C.abs. rewrite norm2_mul.
  apply sqrt_mult; apply norm2_nonneg.
Qed.

Lemma abs_conj (a : complex) : C.abs (C.conj a) = C.abs a.
Proof.
  unfold C.abs. f_equal. unfold C.norm2, C.conj; cbn [re im]. ring.
Qed.

Lemma norm2_zero (z : complex) : C.norm2 z = 0 -> z = C.zero.
Proof.
  intros H. apply abs_zero. unfold C.abs. rewrite H. apply sqrt_0.
Qed.

Lemma mul_nonzero (a b : complex) :
  a <> C.zero -> b <> C.zero -> C.mul a b <> C.zero.
Proof.
  intros Ha Hb H. apply (f_equal C.norm2) in H. rewrite norm2_mul in H.
  replace (C.norm2 C.zero) with 0 in H by (unfold C.norm2; cbn; ring).
  apply Rmult_integral in H.
  destruct H as [H | H]; apply norm2_zero in H; contradiction.
Qed.

Lemma inv_mul (b c : complex) :
  b <> C.zero -> c <> C.zero ->
  C.inv (C.mul b c) = C.mul (C.inv b) (C.inv c).
Proof.
  intros Hb Hc.
  assert (Nb : C.norm2 b <> 0) by (intros E; now apply norm2_zero in E).
  assert (Nc : C.norm2 c <> 0) by (intros E; now apply norm2_zero in E).
  apply complex_ext; unfold C.inv; rewrite norm2_mul;
    unfold C.mul; cbn [re im]; field; split; assumption.
Qed.

Lemma div_div (a b c : complex) :
  b <> C.zero -> c <> C.zero ->
  C.div (C.div a b) c = C.div a (C.mul b c).
Proof.
  intros Hb Hc. unfold C.div. rewrite inv_mul by assumption. cring.
Qed.

Lemma div_one (a : complex) : C.div a C.one = a.
Proof.
  apply complex_ext; unfold C.div, C.mul, C.inv, C.norm2, C.one;
    cbn [re im]; field.
Qed.

Lemma sub_nonzero (s p : complex) : p <> s -> C.sub s p <> C.zero.
Proof.
  intros Hp H. apply Hp. destruct s as [sr si], p as [pr pi'].
  unfold C.sub, C.zero in H; cbn [re im] in H.
  injection H as H1 H2. f_equal; lra.
Qed.

Lemma Cprod_nonzero (l : list complex) :
  Forall (fun z => z <> C.zero) l -> Cprod l <> C.zero.
Proof.
  induction 1 as [| z l Hz _ IH]; cbn [Cprod fold_right].
  - intros H. injection H as H. lra.
  - now apply mul_nonzero.
Qed.

Lemma fold_mul_zeros (s : complex) (zeros : list complex) (fac : complex) :
  fold_left (fun fac zero => C.mul fac (C.sub s zero)) zeros fac
  = C.mul fac (Cprod (map (C.sub s) zeros)).
Proof.
  revert fac. induction zeros as [| z zeros IH]; intros fac;
    cbn [fold_left map Cprod fold_right].
  - cring.
  - rewrite IH. fold (Cprod (map (C.sub s) zeros)). cring.
Qed.

Lemma foldM_div_poles (s : complex) (poles : list complex) (fac : complex) :
  Forall (fun p => p <> s) poles ->
  foldM (fun fac pole => C.pydiv fac (C.sub s pole)) poles fac
  = Ok (C.div fac (Cprod (map (C.sub s) poles))).
Proof.
  intros Hp. revert fac.
  induction Hp as [| p poles Hp Hps IH]; intros fac;
    cbn [foldM map Cprod fold_right].
  - now rewrite div_one.
  - unfold C.pydiv. destruct (C.eq_dec (C.sub s p) C.zero) as [E | _].
    { now apply sub_nonzero in E. }
    cbn [mbind result_bind rbind]. rewrite IH.
    fold (Cprod (map (C.sub s) poles)).
    rewrite div_div; [reflexivity | now apply sub_nonzero |].
    apply Cprod_nonzero, Forall_forall. intros z Hz.
    apply list_elem_of_In, in_map_iff in Hz. destruct Hz as [q [<- Hq]].
    apply sub_nonzero. rewrite Forall_forall in Hps.
    apply Hps. now apply list_elem_of_In.
Qed.

Lemma foldM_div_pole_hit (s : complex) (poles : list complex) (fac : complex) :
  In s poles ->
  foldM (fun fac pole => C.pydiv fac (C.sub s pole)) poles fac
  = Raise ZeroDivisionError.
Proof.
  revert fac. induction poles as [| p poles IH]; intros fac Hin;
    [contradiction |].
  cbn [foldM]. unfold C.pydiv.
  destruct (C.eq_dec (C.sub s p) C.zero) as [E | E]; [reflexivity |].
  cbn [mbind result_bind rbind]. apply IH.
  destruct Hin as [-> | Hin]; [| exact Hin].
  exfalso. apply E. apply complex_ext; unfold C.sub; cbn; ring.
Qed.

Lemma paz2Amp_eval
    (paz : gmap string pyval) (zeros poles : list complex) (gain freq : R) :
  getitem paz "zeros" = Ok (VComplexList zeros) ->
  getitem paz "poles" = Ok (VComplexList poles) ->
  getitem paz "gain" = Ok (VFloat gain) ->
  Forall (fun p => p <> C.imag (2 * PI * freq)) poles ->
  paz2AmpValueOfFreqResp paz freq
  = Ok (C.abs (C.div (Cprod (map (C.sub (C.imag (2 * PI * freq))) zeros))
                     (Cprod (map (C.sub (C.imag (2 * PI * freq))) poles)))
        * gain).
Proof.
  intros Hz Hp Hg Hpoles.
  unfold paz2AmpValueOfFreqResp. rewrite Hz, Hp, Hg.
  cbn [mbind result_bind rbind as_complex_list as_float].
  fold (C.imag (2 * PI * freq)).
  rewrite fold_mul_zeros, foldM_div_poles by exact Hpoles.
  cbn [mbind result_bind rbind].
  replace (C.mul {| re := 1; im := 0 |}
             (Cprod (map (C.sub (C.imag (2 * PI * freq))) zeros)))
    with (Cprod (map (C.sub (C.imag (2 * PI * freq))) zeros)) by cring.
  reflexivity.
Qed.

Lemma abs_analog_response (zeros poles : list complex) (gain : R)
    (s : complex) :
  0 <= gain ->
  C.abs (analog_response zeros poles gain s)
  = C.abs (C.div (Cprod (map (C.sub s) zeros)) (Cprod (map (C.sub s) poles)))
    * gain.
Proof.
  intros Hgain. unfold analog_response, C.div.
  rewrite !abs_mul, abs_scale by exact Hgain. ring.
Qed.

(** When no pole sits at [j 2 pi freq], [paz2AmpValueOfFreqResp] returns
    the magnitude of prod (jw - zero) / prod (jw - pole) times the gain;
    for a gain that is not negative this is the magnitude of the analog
    response at [jw]. *)
Theorem paz2AmpValueOfFreqResp_response
    (paz : gmap string pyval) (zeros poles : list complex) (gain freq : R) :
  getitem paz "zeros" = Ok (VComplexList zeros) ->
  getitem paz "poles" = Ok (VComplexList poles) ->
  getitem paz "gain" = Ok (VFloat gain) ->
  Forall (fun p => p <> C.imag (2 * PI * freq)) poles ->
  let jw := C.imag (2 * PI * freq) in
  paz2AmpValueOfFreqResp paz freq
  = Ok (C.abs (C.div (Cprod (map (C.sub jw) zeros))
                     (Cprod (map (C.sub jw) poles))) * gain)
  /\ (0 <= gain ->
      paz2AmpValueOfFreqResp paz freq
      = Ok (C.abs (analog_response zeros poles gain jw))).
Proof.
  intros Hz Hp Hg Hpoles jw.
  pose proof (paz2Amp_eval paz zeros poles gain freq Hz Hp Hg Hpoles) as E.
  fold jw in E. split; [exact E |].
  intros Hgain. rewrite E. f_equal. symmetry.
  now apply abs_analog_response.
Qed.

Lemma paz2AmpValueOfFreqResp_response_witness :
  paz2AmpValueOfFreqResp flat_paz 1
  = Ok (C.abs (analog_response [] [] 1.0 (C.imag (2 * PI * 1)))).
Proof.
  apply (proj2 (paz2AmpValueOfFreqResp_response flat_paz [] [] 1.0 1
                  eq_refl eq_refl eq_refl (List.Forall_nil _))).
  lra.
Defined.

(** A pole at [j 2 pi freq] makes the division fail: the call raises
    [ZeroDivisionError]. *)
Theorem paz2AmpValueOfFreqResp_pole_on_axis
    (paz : gmap string pyval) (zeros poles : list complex) (freq : R) :
  getitem paz "zeros" = Ok (VComplexList zeros) ->
  getitem paz "poles" = Ok (VComplexList poles) ->
  In (C.imag (2 * PI * freq)) poles ->
  paz2AmpValueOfFreqResp paz freq = Raise ZeroDivisionError.
Proof.
  intros Hz Hp Hin. unfold paz2AmpValueOfFreqResp. rewrite Hz, Hp.
  cbn [mbind result_bind rbind as_complex_list].
  fold (C.imag (2 * PI * freq)).
  now rewrite foldM_div_pole_hit.
Qed.

Lemma paz2AmpValueOfFreqResp_pole_on_axis_witness :
  paz2AmpValueOfFreqResp
    (<["zeros" := VComplexList []]> (<["poles" := VComplexList [mkC 0 0]]> ∅))
    0
  = Raise ZeroDivisionError.
Proof.
  apply (paz2AmpValueOfFreqResp_pole_on_axis _ [] [mkC 0 0] 0);
    [reflexivity | reflexivity |].
  left. unfold C.imag. f_equal. ring.
Defined.

(** What [pazToFreqResp] evaluates to, bin by bin. *)
Lemma pazToFreqResp_eval (poles zeros : list complex) (scale_fac t_samp : R)
    (nfft : Z) :
  t_samp <> 0 ->
  pazToFreqResp poles zeros scale_fac t_samp nfft true true
  = Ok (RespFreq
          (map (fun x => C.conj (analog_response zeros poles scale_fac
                                   (C.imag (2 * PI * x))))
               (linspace 0 (1 / (t_samp * 2.0)) (nfft / 2 + 1)))
          (linspace 0 (1 / (t_samp * 2.0)) (nfft / 2 + 1))).
Proof.
  intros Ht. unfold pazToFreqResp, zpk2tf, freqs.
  rewrite py_fdiv_ok by lra. cbn [mbind result_bind rbind].
  do 2 f_equal. rewrite !map_map. apply map_ext. intros x.
  rewrite polyval_scale, !polyval_poly.
  replace (x * 2 * PI) with (2 * PI * x) by ring. reflexivity.
Qed.

(** The two response functions agree: for an instrument without poles on
    the imaginary axis and with a gain that is not negative, the
    magnitude of every bin that [pazToFreqResp] returns is what
    [paz2AmpValueOfFreqResp] returns at the frequency of the bin. *)
Theorem pazToFreqResp_amplitude
    (paz : gmap string pyval) (zeros poles : list complex)
    (gain t_samp : R) (nfft : Z) :
  getitem paz "zeros" = Ok (VComplexList zeros) ->
  getitem paz "poles" = Ok (VComplexList poles) ->
  getitem paz "gain" = Ok (VFloat gain) ->
  0 <= gain -> t_samp <> 0 ->
  Forall (fun p => re p <> 0) poles ->
  exists (h : list complex) (f : list R),
    pazToFreqResp poles zeros gain t_samp nfft true true = Ok (RespFreq h f)
    /\ length h = length f
    /\ forall (i : nat) (fi : R) (hi : complex),
         nth_error f i = Some fi -> nth_error h i = Some hi ->
         paz2AmpValueOfFreqResp paz fi = Ok (C.abs hi).
Proof.
  intros Hz Hp Hg Hgain Ht Hpoles.
  eexists. eexists. split; [now apply pazToFreqResp_eval |].
  split; [apply length_map |].
  intros i fi hi Hfi Hhi. rewrite nth_error_map, Hfi in Hhi.
  injection Hhi as <-.
  rewrite abs_conj, abs_analog_response by exact Hgain.
  apply paz2Amp_eval; try assumption.
  apply Forall_forall. intros p Hin E.
  rewrite Forall_forall in Hpoles. apply (Hpoles p Hin).
  subst p. reflexivity.
Qed.

Lemma pazToFreqResp_amplitude_witness :
  exists (h : list complex) (f : list R),
    pazToFreqResp [] [] 1.0 1 4 true true = Ok (RespFreq h f)
    /\ length h = length f
    /\ forall (i : nat) (fi : R) (hi : complex),
         nth_error f i = Some fi -> nth_error h i = Some hi ->
         paz2AmpValueOfFreqResp flat_paz fi = Ok (C.abs hi).
Proof.
  apply (pazToFreqResp_amplitude flat_paz [] [] 1.0 1 4);
    first [reflexivity | lra | constructor].
Defined.
End Amplitude.

(** ** More on the magnitude estimation *)

Section MagnitudeMore.
Local Open Scope R_scope.

(** The Wood-Anderson amplitude is proportional to the amplitude read. *)
Theorem estimateWoodAndersonAmplitude_linear
    (paz : gmap string pyval) (amplitude timespan k v : R) :
  estimateWoodAndersonAmplitude paz amplitude timespan = Ok v ->
  estimateWoodAndersonAmplitude paz (k * amplitude) timespan = Ok (k * v).
Proof.
  unfold estimateWoodAndersonAmplitude.
  destruct (py_fdiv 1.0 (2 * timespan)) as [freq | e];
    cbn [mbind result_bind rbind]; [| discriminate].
  destruct (paz2AmpValueOfFreqResp paz freq) as [resp | e];
    cbn [mbind result_bind rbind]; [| discriminate].
  destruct (getitem paz "sensitivity") as [sv | e];
    cbn [mbind result_bind rbind]; [| discriminate].
  destruct (as_float sv) as [sens | e];
    cbn [mbind result_bind rbind]; [| discriminate].
  unfold py_fdiv.
  destruct (Req_dec_T (resp * sens) 0) as [E | E];
    cbn [mbind result_bind rbind]; [discriminate |].
  destruct (paz2AmpValueOfFreqResp WOODANDERSON freq) as [wa_resp | e];
    cbn [mbind result_bind rbind]; [| discriminate].
  destruct (getitem WOODANDERSON "sensitivity") as [wv | e];
    cbn [mbind result_bind rbind]; [| discriminate].
  destruct (as_float wv) as [wa_sens | e];
    cbn [mbind result_bind rbind]; [| discriminate].
  intros [= <-]. f_equal. field.
  repeat split; try lra; intros Z0; apply E; rewrite Z0; ring.
Qed.

Lemma estimateWoodAndersonAmplitude_linear_witness :
  exists v : R,
    estimateWoodAndersonAmplitude flat_paz 2 1 = Ok v
    /\ estimateWoodAndersonAmplitude flat_paz (3 * 2) 1 = Ok (3 * v).
Proof.
  destruct estimateWoodAndersonAmplitude_flat as [v Hv].
  exists v. split; [exact Hv |].
  apply (estimateWoodAndersonAmplitude_linear flat_paz 2 1 3 v Hv).
Defined.

Lemma abs_pos (z : complex) : z <> C.zero -> 0 < C.abs z.
Proof.
  intros Hz. destruct (abs_nonneg z) as [H | H]; [exact H |].
  symmetry in H. apply abs_zero in H. contradiction.
Qed.

Lemma abs_div (a b : complex) :
  b <> C.zero -> C.abs (C.div a b) = C.abs a / C.abs b.
Proof.
  intros Hb. pose proof (abs_pos b Hb) as Hp.
  replace (C.div a b) with (C.mul a (C.div (mkC 1 0) b)).
  - rewrite abs_mul, abs_reciprocal by exact Hp. reflexivity.
  - apply complex_ext; unfold C.div, C.mul; cbn [re im]; ring.
Qed.

(** The response amplitude of the Wood-Anderson instrument is positive
    at every frequency but zero. *)
Lemma WOODANDERSON_amplitude_positive (freq : R) :
  freq <> 0 ->
  exists r : R, paz2AmpValueOfFreqResp WOODANDERSON freq = Ok r /\ 0 < r.
Proof.
  intros Hf. pose proof PI_RGT_0 as Hpi.
  assert (Hw : 2 * PI * freq <> 0) by nra.
  eexists. split.
  - apply (paz2Amp_eval WOODANDERSON
             [C.add (C.of_R 0) (C.imag 0)]
             [C.add (C.of_R (-6.283)) (C.imag 4.7124);
              C.of_R (-6.283 - 4.7124)] 1.0 freq);
      try reflexivity.
    repeat constructor; intros E; apply (f_equal re) in E; cbn in E; lra.
  - apply Rmult_lt_0_compat; [| lra].
    rewrite abs_div.
    + apply Rdiv_lt_0_compat; apply abs_pos.
      * apply Cprod_nonzero. repeat constructor.
        intros E. apply (f_equal im) in E. cbn in E. lra.
      * apply Cprod_nonzero. repeat constructor;
          intros E; apply (f_equal re) in E; cbn in E; lra.
    + apply Cprod_nonzero. repeat constructor;
        intros E; apply (f_equal re) in E; cbn in E; lra.
Qed.

(** A reading made on the Wood-Anderson instrument itself is converted
    to half its peak-to-peak amplitude, in millimetres: the responses
    cancel. *)
Theorem estimateWoodAndersonAmplitude_reference (amplitude timespan : R) :
  timespan <> 0 ->
  estimateWoodAndersonAmplitude WOODANDERSON amplitude timespan
  = Ok (amplitude / 2 * 1000).
Proof.
  intros Ht. unfold estimateWoodAndersonAmplitude.
  rewrite py_fdiv_ok by lra. cbn [mbind result_bind rbind].
  assert (Hf : 1.0 / (2 * timespan) <> 0).
  { unfold Rdiv. apply Rmult_integral_contrapositive_currified; [lra |].
    apply Rinv_neq_0_compat. lra. }
  destruct (WOODANDERSON_amplitude_positive _ Hf) as [r [-> Hr]].
  cbn [mbind result_bind rbind].
  change (getitem WOODANDERSON "sensitivity") with (Ok (VFloat 2080)).
  cbn [mbind result_bind rbind as_float].
  rewrite py_fdiv_ok by nra. cbn [mbind result_bind rbind].
  apply f_equal. replace 2.0 with 2 by lra. field. lra.
Qed.

Lemma estimateWoodAndersonAmplitude_reference_witness :
  estimateWoodAndersonAmplitude WOODANDERSON 4 1 = Ok (4 / 2 * 1000).
Proof. apply (estimateWoodAndersonAmplitude_reference 4 1). lra. Defined.



End MagnitudeMore.

(** ** More on the water-level inversion *)

Section SpecInvMore.
Local Open Scope R_scope.

Lemma mul_inv_self (s : complex) : s <> C.zero -> C.mul s (C.inv s) = C.one.
Proof.
  intros Hs.
  assert (N : C.norm2 s <> 0) by (intros E; now apply norm2_zero in E).
  apply complex_ext; unfold C.mul, C.inv, C.one; cbn [re im];
    unfold C.norm2 in *; field; exact N.
Qed.

Lemma inv_scale (k : R) (s : complex) :
  k <> 0 -> s <> C.zero -> C.inv (C.scale k s) = C.scale (/ k) (C.inv s).
Proof.
  intros Hk Hs.
  assert (N : C.norm2 s <> 0) by (intros E; now apply norm2_zero in E).
  apply complex_ext; unfold C.inv;
    replace (C.norm2 (C.scale k s)) with (k * k * C.norm2 s)
      by (unfold C.norm2, C.scale; cbn [re im]; ring);
    unfold C.scale; cbn [re im]; field; split; assumption.
Qed.

Lemma div_one_l (s : complex) : C.div (mkC 1 0) s = C.inv s.
Proof. apply complex_ext; unfold C.div, C.mul; cbn [re im]; ring. Qed.

(** The product of a bin that is not zero with its inverted bin is the
    real number min(1, |bin| / level): 1 for a bin at or above the water
    level, so that the inversion is exact there, and a positive real
    below 1 for a bin that was raised to the level, whose phase is kept. *)
Theorem specInv_product
    (spec : list complex) (wlev swamp : R) (i : nat) (s : complex) :
  waterlevel spec wlev = Ok swamp ->
  nth_error spec i = Some s -> s <> mkC 0 0 ->
  exists z : complex,
    nth_error (fst (specInv spec wlev)) i = Some z
    /\ C.mul s z = C.of_R (Rmin 1 (C.abs s / swamp)).
Proof.
  intros Hw Hi Hs.
  rewrite (specInv_bins _ _ _ Hw), nth_error_map, Hi. cbn [option_map].
  eexists. split; [reflexivity |].
  pose proof (abs_pos s Hs) as Ha.
  assert (Hsw : 0 < swamp).
  { unfold waterlevel in Hw.
    destruct (np_max (map C.abs spec)) as [m |] eqn:Hm; [| discriminate].
    cbn in Hw. injection Hw as <-.
    apply Rmult_lt_0_compat; [| apply Rpower_10_pos].
    apply Rlt_le_trans with (C.abs s); [exact Ha |].
    apply (np_max_ge _ _ _ Hm), in_map. eapply nth_error_In, Hi. }
  unfold inv_bin. rewrite (Rltb_true 0 (C.abs s)) by exact Ha.
  rewrite andb_true_r.
  destruct (Rlt_dec (C.abs s) swamp) as [Hlt | Hge].
  - rewrite (Rltb_true _ _ Hlt). cbn zeta.
    assert (E : C.abs (C.scale (swamp / C.abs s) s) = swamp).
    { rewrite abs_scale; [field; lra |].
      apply Rlt_le, Rdiv_lt_0_compat; lra. }
    rewrite E. rewrite (Rltb_true 0 swamp), (Reqb_false swamp 0) by lra.
    rewrite div_one_l, inv_scale; [| | exact Hs].
    + assert (Hq : C.abs s / swamp <= 1).
      { apply Rmult_le_reg_r with swamp; [exact Hsw |].
        unfold Rdiv. rewrite Rmult_assoc, Rinv_l by lra. lra. }
      rewrite Rmin_right by exact Hq.
      transitivity (C.scale (/ (swamp / C.abs s)) (C.mul s (C.inv s))).
      * apply complex_ext; unfold C.mul, C.scale; cbn [re im]; ring.
      * rewrite mul_inv_self by exact Hs.
        apply complex_ext; unfold C.scale, C.one, C.of_R; cbn [re im];
          field; lra.
    + apply Rgt_not_eq, Rdiv_lt_0_compat; lra.
  - rewrite (Rltb_false (C.abs s) swamp) by lra. cbn zeta.
    rewrite (Rltb_true 0 (C.abs s)), (Reqb_false (C.abs s) 0) by lra.
    rewrite div_one_l, mul_inv_self by exact Hs.
    rewrite Rmin_left; [reflexivity |].
    apply Rmult_le_reg_r with swamp; [exact Hsw |].
    unfold Rdiv. rewrite Rmult_assoc, Rinv_l by lra. lra.
Qed.

Lemma specInv_product_witness :
  exists z : complex,
    nth_error (fst (specInv [mkC 1 0] 20)) 0 = Some z
    /\ C.mul (mkC 1 0) z
       = C.of_R (Rmin 1 (C.abs (mkC 1 0) / (1 * Rpower 10.0 (- (20) / 20.0)))).
Proof.
  apply (specInv_product [mkC 1 0] 20 (1 * Rpower 10.0 (- (20) / 20.0)) 0
           (mkC 1 0)).
  - unfold waterlevel. now rewrite np_max_unit_bin.
  - reflexivity.
  - intros E. injection E as E. lra.
Defined.
End SpecInvMore.

(** ** More on the RESP evaluation *)

Section EvalRespMore.
Variable evresp :
  string -> string -> string -> string -> Z * Z -> string -> string ->
  list R -> string -> gmap string (list string) -> option response.

Lemma last_map_conj (l : list complex) :
  List.last (map C.conj l) C.one = C.conj (List.last l C.one)
  \/ l = [].
Proof.
  induction l as [| a [| b l] IH]; [now right | now left |].
  left. destruct IH as [IH | IH]; [exact IH | discriminate].
Qed.

Lemma set_last_real_spec (h : list complex) (d : complex) :
  h <> [] ->
  exists h' : list complex,
    set_last_real h = Ok h'
    /\ length h' = length h
    /\ List.last h' d = mkC (re (List.last h d)) 0
    /\ forall i : nat, (S i < length h)%nat -> nth_error h' i = nth_error h i.
Proof.
  intros Hh. destruct h as [| z t] eqn:E; [contradiction |].
  rewrite <- E in *. assert (Hne : h <> []) by (subst h; discriminate).
  exists (removelast h ++ [C.add (C.of_R (re (List.last h z))) (C.imag 0.0)]).
  split; [subst h; reflexivity |].
  assert (Hlen : length (removelast h) = (length h - 1)%nat).
  { rewrite (app_removelast_last z Hne) at 2.
    rewrite length_app. cbn [length]. lia. }
  split; [| split].
  - rewrite length_app, Hlen. cbn [length].
    destruct h; [contradiction | cbn [length]; lia].
  - rewrite last_last.
    apply complex_ext; unfold C.add, C.of_R, C.imag; cbn [re im];
      [| lra].
    replace (List.last h z) with (List.last h d); [lra |].
    clear -Hne. induction h as [| a [| b h] IH]; [contradiction | reflexivity |].
    apply IH. discriminate.
  - intros i Hi. rewrite nth_error_app1 by lia.
    rewrite (app_removelast_last z Hne) at 2.
    rewrite nth_error_app1 by lia. reflexivity.
Qed.

(** A successful evaluation returns the conjugate of what the library
    found, with the last (Nyquist) bin made real, together with the
    frequencies of the library; the temporary file is gone and the world
    is what it was before the call. *)
Theorem evalresp_success
    (t_samp : R) (nfft : Z) (filename : string) (date : Z * Z)
    (station channel network locid units : string) (freq debug : bool)
    (w : world) (content : list string) (res : response) :
  files w !! filename = Some content ->
  t_samp <> 0%R -> (nfft / 2 <> 0)%Z ->
  (let tempfile := fresh (dom (files w)) in
   let fy := (1 / (t_samp * 2.0))%R in
   let step := (fy / IZR (nfft / 2))%R in
   evresp station channel network locid date units tempfile
          (arange 0 (fy + step) step) (if debug then "-v" else "")
          (<[tempfile := content]> (<[tempfile := []]> (files w)))
   = Some res) ->
  rvec res <> [] ->
  exists h : list complex,
    evalresp evresp t_samp nfft filename date station channel network locid
             units freq debug w
    = (Ok (if freq then RespFreq h (rfreqs res) else Resp h),
       mkWorld (heap w) (files w))
    /\ length h = length (rvec res)
    /\ List.last h C.one = mkC (re (List.last (rvec res) C.one)) 0
    /\ forall i : nat,
         (S i < length (rvec res))%nat ->
         nth_error h i = option_map C.conj (nth_error (rvec res) i).
Proof.
  intros Hfile Ht Hn Hres Hvec.
  assert (Hfresh : fresh (dom (files w)) ∉ dom (files w)) by apply is_fresh.
  apply not_elem_of_dom in Hfresh.
  assert (Hconj : map C.conj (rvec res) <> []).
  { destruct (rvec res); [contradiction | discriminate]. }
  destruct (set_last_real_spec (map C.conj (rvec res)) C.one Hconj)
    as [h [Hset [Hlen [Hlast Hnth]]]].
  exists h. split; [| split; [| split]].
  - unfold evalresp.
    unfold mbind at 1, M_bind at 1. unfold read_file at 1. rewrite Hfile.
    unfold mbind at 1, M_bind at 1. unfold named_temporary_file at 1.
    cbn [heap files].
    unfold mbind at 1, M_bind at 1. unfold write_file at 1.
    cbn [heap files].
    unfold mbind at 1, M_bind at 1. unfold lift at 1.
    rewrite py_fdiv_ok by lra.
    unfold mbind at 1, M_bind at 1. unfold lift at 1.
    rewrite py_fdiv_ok by (apply not_0_IZR; exact Hn).
    unfold mbind at 1, M_bind at 1. unfold call_evresp at 1.
    cbn [heap files]. cbv zeta in Hres. rewrite Hres.
    unfold mbind at 1, M_bind at 1. unfold lift at 1. rewrite Hset.
    unfold mbind at 1, M_bind at 1. unfold remove_quietly at 1.
    cbn [heap files].
    rewrite delete_insert_eq, delete_insert_eq, delete_id by exact Hfresh.
    now destruct freq.
  - now rewrite Hlen, length_map.
  - rewrite Hlast.
    destruct (last_map_conj (rvec res)) as [-> | E]; [reflexivity | contradiction].
  - intros i Hi. rewrite Hnth by (rewrite length_map; exact Hi).
    apply nth_error_map.
Qed.

(** A transform of fewer than two points leaves no frequency step: the
    call raises [ZeroDivisionError], after the temporary file has been
    written and without removing it. *)
Theorem evalresp_short_transform
    (t_samp : R) (nfft : Z) (filename : string) (date : Z * Z)
    (station channel network locid units : string) (freq debug : bool)
    (w : world) (content : list string) :
  files w !! filename = Some content ->
  t_samp <> 0%R -> (nfft / 2 = 0)%Z ->
  evalresp evresp t_samp nfft filename date station channel network locid
           units freq debug w
  = (Raise ZeroDivisionError,
     mkWorld (heap w)
             (<[fresh (dom (files w)) := content]>
                (<[fresh (dom (files w)) := []]> (files w)))).
Proof.
  intros Hfile Ht Hn. unfold evalresp.
  unfold mbind at 1, M_bind at 1. unfold read_file at 1. rewrite Hfile.
  unfold mbind at 1, M_bind at 1. unfold named_temporary_file at 1.
  cbn [heap files].
  unfold mbind at 1, M_bind at 1. unfold write_file at 1.
  cbn [heap files].
  unfold mbind at 1, M_bind at 1. unfold lift at 1.
  rewrite py_fdiv_ok by lra.
  unfold mbind at 1, M_bind at 1. unfold lift at 1.
  rewrite Hn, py_fdiv_zero. reflexivity.
Qed.
End EvalRespMore.

Lemma evalresp_success_witness :
  exists h : list complex,
    evalresp (evresp_const (mkResponse [mkC 1 2; mkC 3 4] [0%R; 1%R])) 1 4
             "RESP.ANMO" (2010, 12) "*" "*" "*" "*" "VEL" true false
             resp_world
    = (Ok (RespFreq h [0%R; 1%R]), resp_world)
    /\ length h = 2%nat
    /\ List.last h C.one = mkC 3 0.
Proof.
  destruct (evalresp_success
              (evresp_const (mkResponse [mkC 1 2; mkC 3 4] [0%R; 1%R])) 1 4
              "RESP.ANMO" (2010, 12) "*" "*" "*" "*" "VEL" true false
              resp_world ["B050F03     Station:     ANMO"]
              (mkResponse [mkC 1 2; mkC 3 4] [0%R; 1%R])
              ltac:(reflexivity) ltac:(lra) ltac:(discriminate)
              ltac:(reflexivity) ltac:(discriminate))
    as [h [H1 [H2 [H3 _]]]].
  exists h. repeat split; assumption.
Defined.

Lemma evalresp_short_transform_witness :
  fst (evalresp evresp_null 1 1 "RESP.ANMO" (2010, 12) "*" "*" "*" "*" "VEL"
                true false resp_world)
  = Raise ZeroDivisionError.
Proof.
  rewrite (evalresp_short_transform evresp_null 1 1 "RESP.ANMO" (2010, 12)
             "*" "*" "*" "*" "VEL" true false resp_world
             ["B050F03     Station:     ANMO"]
             ltac:(reflexivity) ltac:(lra) ltac:(reflexivity)).
  reflexivity.
Defined.

(** ** Length of the trace that the simulation returns *)

Section HeapSame.
Variable evresp :
  string -> string -> string -> string -> Z * Z -> string -> string ->
  list R -> string -> gmap string (list string) -> option response.

Lemma heap_same_ret {A : Type} (a : A) : heap_same (mret a : M A).
Proof. intros w. reflexivity. Qed.

Lemma heap_same_lift {A : Type} (r : result A) : heap_same (lift r).
Proof. intros w. reflexivity. Qed.

Lemma heap_same_raise {A : Type} (e : exn) : heap_same (raise e : M A).
Proof. intros w. reflexivity. Qed.

Lemma heap_same_bind {A B : Type} (m : M A) (k : A -> M B) :
  heap_same m -> (forall a, heap_same (k a)) -> heap_same (m ≫= k).
Proof.
  intros Hm Hk w. unfold mbind, M_bind. specialize (Hm w).
  destruct (m w) as [[a | e] w1]; cbn [snd] in *.
  - now rewrite Hk.
  - exact Hm.
Qed.

Lemma heap_same_deref (l : loc) : heap_same (deref l).
Proof. intros w. unfold deref. now destruct (heap w !! l). Qed.

Lemma heap_same_load_real (l : loc) : heap_same (load_real l).
Proof.
  apply heap_same_bind; [apply heap_same_deref |].
  intros [a | a | d]; first [apply heap_same_ret | apply heap_same_raise].
Qed.

Lemma heap_same_load_complex (l : loc) : heap_same (load_complex l).
Proof.
  apply heap_same_bind; [apply heap_same_deref |].
  intros [a | a | d]; first [apply heap_same_ret | apply heap_same_raise].
Qed.

Lemma heap_same_load_dict (l : loc) : heap_same (load_dict l).
Proof.
  apply heap_same_bind; [apply heap_same_deref |].
  intros [a | a | d]; first [apply heap_same_ret | apply heap_same_raise].
Qed.

Lemma heap_same_truth (x : option loc) : heap_same (truth x).
Proof.
  destruct x as [l |]; [| apply heap_same_ret].
  apply heap_same_bind; [apply heap_same_deref | intros o; apply heap_same_lift].
Qed.

Lemma heap_same_paz_item {A : Type} (d : option loc) (key : string)
    (as_a : pyval -> result A) :
  heap_same (paz_item d key as_a).
Proof.
  destruct d as [l |]; [| apply heap_same_raise].
  apply heap_same_bind; [apply heap_same_load_dict |].
  intros d. apply heap_same_lift.
Qed.

Lemma heap_same_check_paz (d : option loc) : heap_same (check_paz d).
Proof.
  destruct d as [l |]; [| apply heap_same_ret].
  apply heap_same_bind; [apply heap_same_deref |].
  intros [a | a | d]; first [apply heap_same_lift | apply heap_same_raise].
Qed.

Lemma heap_same_nothing_given (a b c : option loc) :
  heap_same (nothing_given a b c).
Proof.
  apply heap_same_bind; [apply heap_same_truth |].
  intros [|]; [apply heap_same_ret |].
  apply heap_same_bind; [apply heap_same_truth |].
  intros [|]; [apply heap_same_ret |].
  apply heap_same_bind; [apply heap_same_truth |].
  intros e. apply heap_same_ret.
Qed.

Lemma heap_same_evalresp (t_samp : R) (nfft : Z) (filename : string)
    (date : Z * Z) (station channel network locid units : string)
    (freq debug : bool) :
  heap_same (evalresp evresp t_samp nfft filename date station channel
                      network locid units freq debug).
Proof.
  unfold evalresp.
  apply heap_same_bind.
  { intros w. unfold read_file. now destruct (files w !! filename). }
  intros data. apply heap_same_bind; [intros w; reflexivity |].
  intros tempfile. apply heap_same_bind; [intros w; reflexivity |].
  intros _. apply heap_same_bind; [apply heap_same_lift |].
  intros fy. apply heap_same_bind; [apply heap_same_lift |].
  intros step. apply heap_same_bind.
  { intros w. unfold call_evresp. now destruct (evresp _ _ _ _ _ _ _ _ _ _). }
  intros res. apply heap_same_bind; [apply heap_same_lift |].
  intros h. apply heap_same_bind; [intros w; reflexivity |].
  intros _. destruct freq; apply heap_same_ret.
Qed.
End HeapSame.

Section Hoare.
Variable evresp :
  string -> string -> string -> string -> Z * Z -> string -> string ->
  list R -> string -> gmap string (list string) -> option response.

Lemma bind_inv {A B : Type} (m : M A) (k : A -> M B) (w w' : world) (b : B) :
  (m ≫= k) w = (Ok b, w') ->
  exists (a : A) (w1 : world), m w = (Ok a, w1) /\ k a w1 = (Ok b, w').
Proof.
  unfold mbind, M_bind. destruct (m w) as [[a | e] w1]; [| discriminate].
  intros H. now exists a, w1.
Qed.

Lemma hoare_bind {A B : Type} (P P' : gmap loc obj -> Prop) (φ : A -> Prop)
    (m : M A) (k : A -> M B) (Q : B -> gmap loc obj -> Prop) :
  hoare P m (fun a h => P' h /\ φ a) ->
  (forall a, φ a -> hoare P' (k a) Q) ->
  hoare P (m ≫= k) Q.
Proof.
  intros Hm Hk w b w' HP Hrun.
  apply bind_inv in Hrun as (a & w1 & H1 & H2).
  destruct (Hm w a w1 HP H1) as [HP' Hφ].
  exact (Hk a Hφ w1 b w' HP' H2).
Qed.

Lemma hoare_bind_gen {A B : Type} (P : gmap loc obj -> Prop)
    (Q : A -> gmap loc obj -> Prop) (m : M A) (k : A -> M B)
    (R' : B -> gmap loc obj -> Prop) :
  hoare P m Q -> (forall a, hoare (Q a) (k a) R') -> hoare P (m ≫= k) R'.
Proof.
  intros Hm Hk w b w' HP Hrun.
  apply bind_inv in Hrun as (a & w1 & H1 & H2).
  exact (Hk a w1 b w' (Hm w a w1 HP H1) H2).
Qed.

Lemma hoare_weaken {A : Type} (P P' : gmap loc obj -> Prop) (m : M A)
    (Q Q' : A -> gmap loc obj -> Prop) :
  (forall h, P h -> P' h) -> hoare P' m Q' ->
  (forall a h, Q' a h -> Q a h) -> hoare P m Q.
Proof.
  intros HP Hm HQ w a w' Hw Hrun. apply HQ, (Hm w a w'); auto.
Qed.

Lemma hoare_same {A : Type} (P : gmap loc obj -> Prop) (m : M A) :
  heap_same m -> hoare P m (fun _ h => P h /\ True).
Proof.
  intros Hm w a w' HP Hrun. specialize (Hm w). rewrite Hrun in Hm.
  cbn [snd] in Hm. now rewrite Hm.
Qed.

Lemma hoare_lift {A : Type} (P : gmap loc obj -> Prop) (r : result A) :
  hoare P (lift r) (fun a h => P h /\ r = Ok a).
Proof. intros w a w' HP [= -> <-]. now split. Qed.

Lemma hoare_ret {A : Type} (P : gmap loc obj -> Prop) (a : A)
    (Q : A -> gmap loc obj -> Prop) :
  (forall h, P h -> Q a h) -> hoare P (mret a) Q.
Proof. intros HQ w b w' HP [= <- <-]. now apply HQ. Qed.

Lemma hoare_raise {A : Type} (P : gmap loc obj -> Prop) (e : exn)
    (Q : A -> gmap loc obj -> Prop) :
  hoare P (raise e) Q.
Proof. intros w b w' HP H. discriminate H. Qed.

Lemma hoare_any {A : Type} (m : M A) :
  hoare (fun _ => True) m (fun _ _ => True /\ True).
Proof. intros w a w' _ _. now split. Qed.

Lemma hoare_load_real (l0 : loc) (Φ : obj -> Prop) :
  hoare (holds l0 Φ) (load_real l0) (fun a h => holds l0 Φ h /\ Φ (ArrR a)).
Proof.
  intros w a w' (o & Ho & HΦ) Hrun. unfold load_real in Hrun.
  apply bind_inv in Hrun as (o' & w1 & H1 & H2).
  unfold deref in H1. rewrite Ho in H1. injection H1 as <- <-.
  destruct o as [a' | d | d]; try discriminate H2.
  injection H2 as <- <-. split; [now exists (ArrR a') | exact HΦ].
Qed.

Lemma hoare_load_complex (l0 : loc) (Φ : obj -> Prop) :
  hoare (holds l0 Φ) (load_complex l0)
        (fun d h => holds l0 Φ h /\ Φ (ArrC d)).
Proof.
  intros w a w' (o & Ho & HΦ) Hrun. unfold load_complex in Hrun.
  apply bind_inv in Hrun as (o' & w1 & H1 & H2).
  unfold deref in H1. rewrite Ho in H1. injection H1 as <- <-.
  destruct o as [a' | d | d]; try discriminate H2.
  injection H2 as <- <-. split; [now exists (ArrC d) | exact HΦ].
Qed.

Lemma hoare_alloc (l0 : loc) (Φ : obj -> Prop) (o : obj) :
  hoare (holds l0 Φ) (alloc o) (fun l h => holds l0 Φ h /\ l <> l0).
Proof.
  intros w l w' (o0 & Ho & HΦ) [= <- <-]. cbn [heap].
  assert (Hne : fresh (dom (heap w)) <> l0).
  { intros E. pose proof (is_fresh (dom (heap w))) as Hf.
    rewrite E in Hf. apply Hf, elem_of_dom. now exists o0. }
  split; [| exact Hne].
  exists o0. split; [| exact HΦ]. now rewrite lookup_insert_ne.
Qed.

Lemma hoare_alloc_new (P : gmap loc obj -> Prop) (Φ : obj -> Prop) (o : obj) :
  Φ o -> hoare P (alloc o) (fun l h => holds l Φ h).
Proof.
  intros HΦ w l w' _ [= <- <-]. cbn [heap].
  exists o. split; [apply lookup_insert_eq | exact HΦ].
Qed.

Lemma hoare_store_same (l0 : loc) (Φ : obj -> Prop) (o : obj) :
  Φ o -> hoare (holds l0 Φ) (store l0 o) (fun _ h => holds l0 Φ h /\ True).
Proof.
  intros HΦ w u w' _ Hrun. inversion Hrun; subst. cbn [heap]. split; [| exact I].
  exists o. split; [apply lookup_insert_eq | exact HΦ].
Qed.

Lemma hoare_store_other (l0 l : loc) (Φ : obj -> Prop) (o : obj) :
  l <> l0 -> hoare (holds l0 Φ) (store l o) (fun _ h => holds l0 Φ h /\ True).
Proof.
  intros Hl w u w' (o0 & Ho & HΦ) Hrun. inversion Hrun; subst. cbn [heap].
  split; [| exact I].
  exists o0. split; [| exact HΦ]. now rewrite lookup_insert_ne.
Qed.

Lemma hoare_alloc_resp (l0 : loc) (Φ : obj -> Prop) (r : freq_resp) :
  hoare (holds l0 Φ) (alloc_resp r)
        (fun fr h => holds l0 Φ h /\ fst fr <> l0).
Proof.
  destruct r as [h | h f]; cbn [alloc_resp]; [apply hoare_raise |].
  eapply hoare_bind; [apply hoare_alloc |].
  intros l Hl. apply hoare_ret. intros h0 Hh. now split.
Qed.

(** *** Lengths of the arrays *)

Lemma broadcast2_length {A B : Type} (f : A -> B -> A) (a c : list A)
    (b : list B) :
  broadcast2 f a b = Ok c -> length c = length a.
Proof.
  unfold broadcast2. destruct (Nat.eqb_spec (length a) (length b)) as [E | _].
  - intros [= <-]. rewrite length_map, length_combine. lia.
  - destruct b as [| y [| ? ?]]; try discriminate.
    intros [= <-]. apply length_map.
Qed.

Lemma rfft_length (a : list R) (n : Z) (spec : list complex) :
  rfft a n = Ok spec -> length spec = Z.to_nat (n / 2 + 1).
Proof.
  unfold rfft. destruct (n <? 1); [discriminate |].
  intros [= <-]. now rewrite length_map, length_seq.
Qed.

Lemma irfft_length (spec : list complex) (x : list R) :
  irfft spec = Ok x -> length x = (2 * (length spec - 1))%nat.
Proof.
  unfold irfft. destruct (2 * (length spec - 1) <? 1)%nat; [discriminate |].
  intros [= <-]. now rewrite length_map, length_seq.
Qed.

Lemma simpleDetrend_length (data out : list R) :
  simpleDetrend data = Ok out -> length out = length data.
Proof.
  unfold simpleDetrend. destruct data as [| x1 t]; [discriminate |].
  cbv zeta. intros [= <-]. cbn [length].
  rewrite length_map, length_combine, length_seq. lia.
Qed.

Lemma nextpow2_ge (i n : Z) : nextpow2 i = Ok n -> i <= n.
Proof.
  unfold nextpow2. destruct (Z.leb_spec i 0) as [_ | Hi]; [discriminate |].
  intros [= <-]. apply (Z.log2_log2_up_spec i Hi).
Qed.

Lemma hoare_store_product {B : Type} (l0 : loc) (n : nat)
    (f : complex -> B -> complex) (d : list complex) (b : list B) :
  length d = n ->
  hoare (holds l0 (complex_array_of n))
        (lift (broadcast2 f d b) ≫= fun d' => store l0 (ArrC d'))
        (fun _ h => holds l0 (complex_array_of n) h /\ True).
Proof.
  intros Hd. eapply hoare_bind; [apply hoare_lift | intros d' Hd'].
  apply hoare_store_same. exists d'. split; [reflexivity |].
  apply broadcast2_length in Hd'. congruence.
Qed.

Lemma hoare_store_map (l0 : loc) (n : nat) (f : R -> R) (a : list R) :
  length a = n ->
  hoare (holds l0 (real_array_of n)) (store l0 (ArrR (map f a)))
        (fun _ h => holds l0 (real_array_of n) h /\ True).
Proof.
  intros Ha. apply hoare_store_same. exists (map f a).
  split; [reflexivity | now rewrite length_map].
Qed.

Ltac hsame :=
  first
    [ apply heap_same_truth
    | apply heap_same_paz_item
    | apply heap_same_check_paz
    | apply heap_same_nothing_given
    | apply heap_same_evalresp
    | apply heap_same_load_real
    | apply heap_same_load_complex
    | apply heap_same_load_dict
    | apply heap_same_lift
    | apply heap_same_ret ].

Ltac hleaf := first [apply hoare_lift | apply hoare_same; hsame].

Ltac hstep := eapply hoare_bind; [solve [hleaf] | intros ? ?].
Ltac hsteps := repeat hstep.

Lemma seisSim_hoare (data : loc) (samp_rate : R)
    (paz_remove paz_simulate : option loc)
    (remove_sensitivity simulate_sensitivity : bool) (water_level : R)
    (zero_mean taper : bool) (taper_fraction : Q)
    (pre_filt : option (R * R * R * R)) (seedresp : option loc)
    (nfft_pow2 : bool) (a0 : list R) :
  hoare (holds data (fun o => o = ArrR a0))
    (seisSim evresp data samp_rate paz_remove paz_simulate
             remove_sensitivity simulate_sensitivity water_level zero_mean
             taper taper_fraction pre_filt seedresp nfft_pow2)
    (fun out h => holds out (real_array_of (length a0)) h).
Proof.
  unfold seisSim.
  eapply hoare_bind; [hleaf | intros none _].
  destruct none; [apply hoare_raise |].
  eapply hoare_bind; [hleaf | intros _ _].
  eapply hoare_bind; [hleaf | intros _ _].
  eapply hoare_bind; [hleaf | intros delta _].
  eapply hoare_bind;
    [apply (hoare_load_real data (fun o => o = ArrR a0)) | intros a Ha].
  injection Ha as ->.
  (* up to the spectrum only the transform length matters *)
  eapply (hoare_weaken _ (fun _ => True)); [easy | | intros out h H; exact H].
  eapply hoare_bind; [apply hoare_any | intros data1 _].
  eapply hoare_bind; [apply hoare_any | intros _ _].
  eapply hoare_bind; [apply hoare_any | intros _ _].
  eapply (hoare_bind _ (fun _ => True)
            (fun nfft => 2 * Z.of_nat (length a0) <= nfft));
    [| intros nfft Hnfft].
  { destruct nfft_pow2.
    - intros w n w' _ [= Hn _]. split; [exact I | now apply nextpow2_ge].
    - destruct (Z.odd _); apply hoare_ret; intros; split; first [exact I | lia]. }
  eapply hoare_bind; [apply hoare_any | intros a' _].
  eapply hoare_bind; [apply hoare_lift | intros spec Hspec].
  apply rfft_length in Hspec.
  (* the spectrum keeps its length through the filtering *)
  eapply hoare_bind_gen;
    [apply (hoare_alloc_new _ (complex_array_of (length spec))); now exists spec
    | intros data2].
  eapply hoare_bind; [hleaf | intros rm _].
  eapply (hoare_bind _ (holds data2 (complex_array_of (length spec)))
            (fun fr : option (loc * list R) =>
               match fr with Some (l, _) => l <> data2 | None => True end));
    [| intros fr Hfr].
  { destruct rm; [| apply hoare_ret; now intros]. hsteps.
    eapply hoare_bind; [apply hoare_alloc_resp | intros [l f] Hl].
    apply hoare_ret. now intros. }
  eapply hoare_bind; [hleaf | intros sr _].
  eapply (hoare_bind _ (holds data2 (complex_array_of (length spec)))
            (fun fr : option (loc * list R) =>
               match fr with Some (l, _) => l <> data2 | None => True end));
    [| intros fr' Hfr'].
  { destruct sr; [| apply hoare_ret; now intros]. hsteps.
    eapply hoare_bind; [apply hoare_alloc_resp | intros [l f] Hl].
    apply hoare_ret. now intros. }
  eapply hoare_bind; [hleaf | intros rm' _].
  eapply (hoare_bind _ (holds data2 (complex_array_of (length spec)))
            (fun _ => True)); [| intros go _].
  { destruct rm'; [apply hoare_ret; now intros | hleaf]. }
  eapply (hoare_bind _ (holds data2 (complex_array_of (length spec)))
            (fun _ => True)); [| intros _ _].
  { destruct go; [| apply hoare_ret; now intros].
    destruct fr' as [[freq_response freqs] |]; [| apply hoare_raise].
    eapply (hoare_bind _ (holds data2 (complex_array_of (length spec)))
              (fun _ => True)); [| intros _ _].
    { destruct pre_filt as [corners |]; [| apply hoare_ret; now intros].
      eapply hoare_bind;
      [apply (hoare_load_complex data2 (complex_array_of (length spec)))
      | intros d (d' & [= <-] & Hd)].
      now apply hoare_store_product. }
    eapply hoare_bind; [hleaf | intros sp _].
    destruct (specInv sp water_level) as [sp' found].
    eapply hoare_bind; [now apply hoare_store_other | intros _ _].
    eapply hoare_bind; [hleaf | intros _ _].
    eapply hoare_bind;
      [apply (hoare_load_complex data2 (complex_array_of (length spec)))
      | intros d (d' & [= <-] & Hd)].
    eapply hoare_bind; [hleaf | intros inv _].
    now apply hoare_store_product. }
  eapply hoare_bind; [hleaf | intros ps _].
  eapply (hoare_bind _ (holds data2 (complex_array_of (length spec)))
            (fun _ => True)); [| intros _ _].
  { destruct ps; [| apply hoare_ret; now intros]. do 4 hstep.
    eapply hoare_bind;
      [apply (hoare_load_complex data2 (complex_array_of (length spec)))
      | intros d (d' & [= <-] & Hd)].
    now apply hoare_store_product. }
  eapply hoare_bind;
      [apply (hoare_load_complex data2 (complex_array_of (length spec)))
      | intros d (d' & [= <-] & Hd)].
  eapply hoare_bind; [apply hoare_lift | intros x Hx].
  apply irfft_length in Hx.
  (* the trace that is returned *)
  eapply hoare_bind_gen;
    [apply (hoare_alloc_new _ (real_array_of (length a0)))
    | intros data3].
  { eexists. split; [reflexivity |]. rewrite length_firstn, Nat2Z.id.
    rewrite Hx, Hd, Hspec. clear -Hnfft.
    assert (0 <= nfft / 2)%Z by (apply Z.div_pos; lia).
    assert (nfft - 1 <= 2 * (nfft / 2))%Z.
    { pose proof (Z.div_mod nfft 2 ltac:(lia)).
      pose proof (Z.mod_pos_bound nfft 2 ltac:(lia)). lia. }
    lia. }
  cbv beta.
  eapply hoare_bind;
    [apply (hoare_load_real data3 (real_array_of (length a0)))
    | intros a1 (a1' & [= <-] & Ha1)].
  eapply hoare_bind; [apply hoare_lift | intros a2 Ha2].
  apply simpleDetrend_length in Ha2.
  eapply hoare_bind; [apply hoare_store_same | intros _ _].
  { exists a2. split; [reflexivity | congruence]. }
  eapply hoare_bind; [hleaf | intros rm3 _].
  eapply (hoare_bind _ (holds data3 (real_array_of (length a0)))
            (fun _ => True)); [| intros _ _].
  { destruct (rm3 && remove_sensitivity); [| apply hoare_ret; now intros].
    hstep.
    eapply hoare_bind;
      [apply (hoare_load_real data3 (real_array_of (length a0)))
      | intros a3 (a3' & [= <-] & Ha3)].
    now apply hoare_store_map. }
  eapply hoare_bind; [hleaf | intros ps3 _].
  eapply (hoare_bind _ (holds data3 (real_array_of (length a0)))
            (fun _ => True)); [| intros _ _].
  { destruct (ps3 && simulate_sensitivity); [| apply hoare_ret; now intros].
    hstep.
    eapply hoare_bind;
      [apply (hoare_load_real data3 (real_array_of (length a0)))
      | intros a3 (a3' & [= <-] & Ha3)].
    now apply hoare_store_map. }
  apply hoare_ret. now intros.
Qed.

(** A trace that [seisSim] returns has as many samples as the trace that
    was passed in. *)
Theorem seisSim_output_length (data : loc) (samp_rate : R)
    (paz_remove paz_simulate : option loc)
    (remove_sensitivity simulate_sensitivity : bool) (water_level : R)
    (zero_mean taper : bool) (taper_fraction : Q)
    (pre_filt : option (R * R * R * R)) (seedresp : option loc)
    (nfft_pow2 : bool) (w w' : world) (a0 : list R) (out : loc) :
  heap w !! data = Some (ArrR a0) ->
  seisSim evresp data samp_rate paz_remove paz_simulate remove_sensitivity
          simulate_sensitivity water_level zero_mean taper taper_fraction
          pre_filt seedresp nfft_pow2 w
  = (Ok out, w') ->
  exists a : list R,
    heap w' !! out = Some (ArrR a) /\ length a = length a0.
Proof.
  intros Hdata Hrun.
  destruct (seisSim_hoare data samp_rate paz_remove paz_simulate
              remove_sensitivity simulate_sensitivity water_level zero_mean
              taper taper_fraction pre_filt seedresp nfft_pow2 a0 w out w')
    as (o & Ho & a & -> & Ha).
  - now exists (ArrR a0).
  - exact Hrun.
  - now exists a.
Qed.
End Hoare.

Lemma seisSim_output_length_witness :
  match seisSim evresp_null 0%nat 1 (Some 1%nat) None true true 600 true true
                (1 # 20) None None false sim_world with
  | (Ok out, w') =>
      exists a : list R, heap w' !! out = Some (ArrR a) /\ length a = 2%nat
  | (Raise _, _) => False
  end.
Proof.
  pose proof sim_example_runs as Hok.
  destruct (seisSim evresp_null 0%nat 1 (Some 1%nat) None true true 600 true
                    true (1 # 20) None None false sim_world)
    as [[out | e] w'] eqn:E; [| discriminate Hok].
  apply (seisSim_output_length evresp_null 0%nat 1 (Some 1%nat) None true true
           600 true true (1 # 20) None None false sim_world w' [1%R; 2%R] out).
  - reflexivity.
  - exact E.
Defined.

(** ** More configuration errors of the simulation engine *)

Section Validation.
Variable evresp :
  string -> string -> string -> string -> Z * Z -> string -> string ->
  list R -> string -> gmap string (list string) -> option response.

Lemma truth_absent (w : world) (x : option loc) :
  absent w x -> truth x w = (Ok false, w).
Proof.
  intros [-> | (l & -> & Hl)]; [reflexivity |].
  unfold truth, mbind, M_bind, deref. rewrite Hl. reflexivity.
Qed.


(** Empty dictionaries count as absent: when each of the three
    descriptors is [None] or an empty dictionary, [seisSim] raises
    [TypeError] and leaves the world as it is. *)
Theorem seisSim_nothing_usable (data : loc) (samp_rate : R)
    (paz_remove paz_simulate : option loc)
    (remove_sensitivity simulate_sensitivity : bool) (water_level : R)
    (zero_mean taper : bool) (taper_fraction : Q)
    (pre_filt : option (R * R * R * R)) (seedresp : option loc)
    (nfft_pow2 : bool) (w : world) :
  absent w paz_remove -> absent w paz_simulate -> absent w seedresp ->
  seisSim evresp data samp_rate paz_remove paz_simulate remove_sensitivity
          simulate_sensitivity water_level zero_mean taper taper_fraction
          pre_filt seedresp nfft_pow2 w
  = (Raise TypeError, w).
Proof.
  intros Hr Hs He. unfold seisSim.
  assert (Hnone : nothing_given paz_remove paz_simulate seedresp w
                  = (Ok true, w)).
  { unfold nothing_given.
    unfold mbind at 1, M_bind at 1. rewrite (truth_absent _ _ Hr).
    unfold mbind at 1, M_bind at 1. rewrite (truth_absent _ _ Hs).
    unfold mbind at 1, M_bind at 1. rewrite (truth_absent _ _ He).
    reflexivity. }
  unfold mbind at 1, M_bind at 1. rewrite Hnone. reflexivity.
Qed.

End Validation.

Lemma seisSim_nothing_usable_witness :
  seisSim evresp_null 0%nat 1 (Some 1%nat) None true true 600 true true
          (1 # 20) None None false
          (mkWorld (<[0%nat := ArrR [1%R]]> (<[1%nat := Dict ∅]> ∅)) ∅)
  = (Raise TypeError,
     mkWorld (<[0%nat := ArrR [1%R]]> (<[1%nat := Dict ∅]> ∅)) ∅).
Proof.
  apply seisSim_nothing_usable.
  - right. exists 1%nat. split; reflexivity.
  - now left.
  - now left.
Defined.


(** ** Station contents *)

Section StationContents.
Import Station.

Lemma get_contents_fold (self : SeismicStation)
    (chans : list SeismicChannel) (desc : list string) (names : list string) :
  fold_left
    (fun (content_dict : gmap string (list string)) channel =>
       match content_dict !! "channels" with
       | Some names =>
           <["channels" := names ++ [channel_entry self channel]]> content_dict
       | None => content_dict
       end)
    chans (<["stations" := desc]> (<["channels" := names]> ∅))
  = <["stations" := desc]>
      (<["channels" := names ++ map (channel_entry self) chans]> ∅).
Proof.
  revert names. induction chans as [| ch chans IH]; intros names.
  - cbn. now rewrite app_nil_r.
  - cbn [fold_left map].
    rewrite lookup_insert_ne by discriminate. rewrite lookup_insert_eq.
    rewrite (insert_insert_ne _ "channels" "stations") by discriminate.
    rewrite insert_insert_eq, IH, <- app_assoc. reflexivity.
Qed.

Lemma prefix_append (s t : string) : String.prefix s (String.append s t) = true.
Proof.
  induction s as [| c s IH]; simpl.
  - now destruct t.
  - destruct (Ascii.ascii_dec c c); [exact IH | contradiction].
Qed.

(** [get_contents] names the station once, by a description that starts
    with the station code, and lists the channels in their order, each
    as code.location.channel; the entry of the channel that [station[i]]
    returns is found at the same place, counted from the end for a
    negative [i]. *)
Theorem get_contents_channels (self : SeismicStation) :
  exists (desc : string) (names : list string),
    get_contents self !! "stations" = Some [desc]
    /\ String.prefix (code self) desc = true
    /\ get_contents self !! "channels" = Some names
    /\ names = map (channel_entry self) (channels self)
    /\ forall (i : Z) (channel : SeismicChannel),
         getitem self i = Ok channel ->
         nth_error names
           (Z.to_nat (if i <? 0 then i + Z.of_nat (length (channels self))
                      else i))
         = Some (channel_entry self channel).
Proof.
  unfold get_contents. cbv zeta. rewrite get_contents_fold. cbn [app].
  eexists. eexists. split; [apply lookup_insert_eq |].
  split; [apply prefix_append |].
  split; [rewrite lookup_insert_ne by discriminate; apply lookup_insert_eq |].
  split; [reflexivity |].
  intros i channel. unfold getitem, py_index. cbv zeta.
  destruct ((0 <=? _) && (_ <? _)); [| discriminate].
  destruct (nth_error (channels self) _) as [ch |] eqn:E; [| discriminate].
  intros [= <-]. rewrite nth_error_map, E. reflexivity.
Qed.

(** [station[i]] raises [IndexError] exactly for an index outside
    [-n, n), where n is the number of channels, and an index below zero
    stands for the channel [n + i]. *)
Theorem getitem_bounds (self : SeismicStation) (i : Z) :
  let n := Z.of_nat (length (channels self)) in
  (getitem self i = Raise IndexError <-> (i < - n \/ n <= i))
  /\ (- n <= i < 0 -> getitem self i = getitem self (i + n)).
Proof.
  intros n. unfold getitem, py_index. cbv zeta. fold n. split.
  - destruct (Z.ltb_spec i 0) as [Hneg | Hpos].
    + destruct (Z.leb_spec 0 (i + n)) as [H0 | H0];
        destruct (Z.ltb_spec (i + n) n) as [H1 | H1]; cbn [andb];
        try (split; [lia | reflexivity]).
      destruct (nth_error (channels self) (Z.to_nat (i + n))) eqn:E.
      * split; [discriminate | lia].
      * apply nth_error_None in E. lia.
    + destruct (Z.leb_spec 0 i) as [H0 | H0];
        destruct (Z.ltb_spec i n) as [H1 | H1]; cbn [andb];
        try (split; [lia | reflexivity]).
      destruct (nth_error (channels self) (Z.to_nat i)) eqn:E.
      * split; [discriminate | lia].
      * apply nth_error_None in E. lia.
  - intros Hi.
    destruct (Z.ltb_spec i 0) as [_ | H]; [| lia].
    destruct (Z.ltb_spec (i + n) 0) as [H | _]; [lia |]. reflexivity.
Qed.

Lemma getitem_bounds_witness :
  getitem (mkStation "FUR" None [mkChannel "" "EHZ"; mkChannel "" "EHN"]) (-1)
  = getitem (mkStation "FUR" None [mkChannel "" "EHZ"; mkChannel "" "EHN"])
            (-1 + 2).
Proof.
  apply (proj2 (getitem_bounds
                  (mkStation "FUR" None [mkChannel "" "EHZ"; mkChannel "" "EHN"])
                  (-1))).
  cbn. lia.
Defined.

Lemma get_contents_channels_witness :
  exists (desc : string) (names : list string),
    get_contents (mkStation "FUR" None [mkChannel "" "EHZ"]) !! "stations"
    = Some [desc]
    /\ get_contents (mkStation "FUR" None [mkChannel "" "EHZ"]) !! "channels"
       = Some names
    /\ nth_error names 0 = Some "FUR..EHZ".
Proof.
  destruct (get_contents_channels (mkStation "FUR" None [mkChannel "" "EHZ"]))
    as (desc & names & H1 & _ & H3 & _ & H5).
  exists desc, names. split; [exact H1 |]. split; [exact H3 |].
  apply (H5 0 (mkChannel "" "EHZ")). reflexivity.
Defined.
End StationContents.
